(** * The state-transport core of the platformer: package [network]

    A shallow embedding of the Go package [network] (Manager, peer, the
    accept task and the two per-connection loops) together with the
    properties of its behaviour.

    Conventions of the embedding.
    - A Go [error] value is [option error]; [None] is [nil].
    - A Go pointer receiver [*Manager] is [option Manager]; [None] is [nil].
    - A Go channel is a record [chan] (buffer, capacity, closed flag); the
      channel operations follow the language specification, including the
      run-time panics of [close] and of a send on a closed channel.
    - A [select] statement offers the communications that can proceed, in
      source order; when several can proceed the runtime picks one of them
      at random, which is the [nat] choice argument of each function that
      embeds a [select].
    - A function that may panic returns an [outcome].
    - The other goroutines and the network are the environment: the result
      of [Accept], of [Decode], of [Encode] and of the first [Close] of a
      connection or listener are arguments. *)

From Stdlib Require Import ZArith String List Bool Arith Lia.
Import ListNotations.

(** ** Constants *)

Definition defaultSendBufferSize : nat := 8.

(** ** Errors *)

(** The error values the package tells apart: the two sentinels it tests
    with [errors.Is], any other leaf error, and a wrapper with [Unwrap]
    (the [*net.OpError] the [net] package returns). *)
Inductive error : Type :=
| ErrClosed                                (* net.ErrClosed *)
| EOF                                      (* io.EOF *)
| ErrOther (msg : string)
| OpError (op : string) (inner : error).
Arguments ErrOther msg%_string.
Arguments OpError op%_string inner.

Definition error_eq_dec (a b : error) : {a = b} + {a <> b}.
Proof. decide equality; apply string_dec. Defined.

Definition error_eqb (a b : error) : bool :=
  if error_eq_dec a b then true else false.

(** [errors.Is(err, target)]: [err] or an error of its [Unwrap] chain is
    [target]. *)
Fixpoint errors_Is (e target : error) : bool :=
  error_eqb e target ||
  match e with
  | OpError _ inner => errors_Is inner target
  | _ => false
  end.

(** ** Outcomes: normal return or run-time panic *)

Inductive outcome (A : Type) : Type :=
| Returns (a : A)
| Panics (msg : string).
Arguments Returns {A} a.
Arguments Panics {A} msg%_string.

Definition bind {A B : Type} (c : outcome A) (k : A -> outcome B) : outcome B :=
  match c with
  | Returns a => k a
  | Panics msg => Panics msg
  end.

Notation "x <- c ;; k" := (bind c (fun x => k))
  (at level 61, c at next level, right associativity).
Notation "' pat <- c ;; k" := (bind c (fun x => match x with pat => k end))
  (at level 61, pat pattern, c at next level, right associativity).

(** ** Channels *)

Record chan (A : Type) : Type := mkChan {
  ch_buf : list A;
  ch_cap : nat;
  ch_closed : bool
}.
Arguments mkChan {A}.
Arguments ch_buf {A}.
Arguments ch_cap {A}.
Arguments ch_closed {A}.

(** [make(chan A, n)] *)
Definition make_chan {A : Type} (n : nat) : chan A := mkChan [] n false.

(** A receive can proceed when a value is buffered or the channel is closed. *)
Definition chan_recv_ready {A : Type} (c : chan A) : bool :=
  negb (length (ch_buf c) =? 0) || ch_closed c.

(** A send can proceed when the buffer has room; on a closed channel it
    proceeds by panicking. *)
Definition chan_send_ready {A : Type} (c : chan A) : bool :=
  ch_closed c || (length (ch_buf c) <? ch_cap c).

(** [v, ok := <-c] on a channel where a receive can proceed. *)
Definition chan_recv {A : Type} (zero : A) (c : chan A) : A * bool * chan A :=
  match ch_buf c with
  | v :: rest => (v, true, mkChan rest (ch_cap c) (ch_closed c))
  | [] => (zero, false, c)
  end.

(** [c <- v] on a channel where a send can proceed. *)
Definition chan_send {A : Type} (v : A) (c : chan A) : outcome (chan A) :=
  if ch_closed c then Panics "send on closed channel"
  else Returns (mkChan (ch_buf c ++ [v]) (ch_cap c) false).

(** [close(c)] *)
Definition chan_close {A : Type} (c : chan A) : outcome (chan A) :=
  if ch_closed c then Panics "close of closed channel"
  else Returns (mkChan (ch_buf c) (ch_cap c) true).

(** The choice of a [select] among the communications that can proceed:
    [None] when none can (the [default] branch, or blocking). *)
Definition pick {A : Type} (o : nat) (ready : list A) : option A :=
  match ready with
  | [] => None
  | _ => nth_error ready (o mod length ready)
  end.

Definition offer {A : Type} (b : bool) (c : A) : list A :=
  if b then [c] else [].

(** ** The snapshot model *)

(** A [float64] is carried as its IEEE-754 binary64 bit pattern; the package
    only stores and copies these values. *)
Definition float64 : Type := Z.

Record PlayerState : Type := mkPlayerState {
  ps_X : float64;
  ps_Y : float64;
  ps_VelocityX : float64;
  ps_VelocityY : float64;
  ps_OnGround : bool;
  ps_FacingRight : bool
}.

Record BulletState : Type := mkBulletState {
  bs_X : float64;
  bs_Y : float64;
  bs_VelocityX : float64
}.

Record StateMessage : Type := mkStateMessage {
  Player : PlayerState;
  Bullets : list BulletState
}.

(** [StateMessage{}] *)
Definition StateMessage_zero : StateMessage :=
  mkStateMessage (mkPlayerState 0%Z 0%Z 0%Z 0%Z false false) [].

(** ** The environment: connections and listeners *)

(** A [net.Conn]: which connection it is (its remote address), whether it
    is closed, what its first [Close] returns, how often [Close] was
    called, and the snapshots written to it so far. *)
Record Conn : Type := mkConn {
  conn_remote : string;
  conn_closed : bool;
  conn_closeErr : option error;
  conn_closeCalls : nat;
  conn_wire : list StateMessage
}.

(** [conn.Close()]: a second close reports [net.ErrClosed], wrapped. *)
Definition Conn_Close (c : Conn) : option error * Conn :=
  if conn_closed c
  then (Some (OpError "close" ErrClosed),
        mkConn (conn_remote c) true (conn_closeErr c) (S (conn_closeCalls c))
               (conn_wire c))
  else (conn_closeErr c,
        mkConn (conn_remote c) true (conn_closeErr c) (S (conn_closeCalls c))
               (conn_wire c)).

Definition Conn_Write (msg : StateMessage) (c : Conn) : Conn :=
  mkConn (conn_remote c) (conn_closed c) (conn_closeErr c) (conn_closeCalls c)
         (conn_wire c ++ [msg]).

(** A [net.Listener], with counters of the calls it received. *)
Record Listener : Type := mkListener {
  l_closed : bool;
  l_closeErr : option error;
  l_closeCalls : nat;
  l_acceptCalls : nat
}.

Definition Listener_Close (l : Listener) : option error * Listener :=
  if l_closed l
  then (Some (OpError "close" ErrClosed),
        mkListener true (l_closeErr l) (S (l_closeCalls l)) (l_acceptCalls l))
  else (l_closeErr l,
        mkListener true (l_closeErr l) (S (l_closeCalls l)) (l_acceptCalls l)).

(** What the network hands to [listener.Accept()]. *)
Inductive accepted : Type :=
| AcceptConn (c : Conn)
| AcceptErr (e : error).

(** [listener.Accept()]: on a closed listener it fails with
    [net.ErrClosed], wrapped. *)
Definition Listener_Accept (net : accepted) (l : Listener) : accepted * Listener :=
  (if l_closed l then AcceptErr (OpError "accept" ErrClosed) else net,
   mkListener (l_closed l) (l_closeErr l) (l_closeCalls l) (S (l_acceptCalls l))).

(** ** The peer *)

(** The struct [peer].  [p_closeFn] is the [sync.Once] (has [Do] run);
    [p_dropped] is a ghost field: the queued snapshots that [send] took off
    the queue and discarded. *)
Record peer : Type := mkPeer {
  p_conn : Conn;
  p_sendCh : chan StateMessage;
  p_closed : chan unit;
  p_closeFn : bool;
  p_latest : StateMessage;
  p_hasData : bool;
  p_err : option error;
  p_dropped : list StateMessage
}.

Definition set_conn (c : Conn) (p : peer) : peer :=
  mkPeer c (p_sendCh p) (p_closed p) (p_closeFn p) (p_latest p) (p_hasData p)
         (p_err p) (p_dropped p).

Definition set_sendCh (c : chan StateMessage) (p : peer) : peer :=
  mkPeer (p_conn p) c (p_closed p) (p_closeFn p) (p_latest p) (p_hasData p)
         (p_err p) (p_dropped p).

Definition set_err (e : option error) (p : peer) : peer :=
  mkPeer (p_conn p) (p_sendCh p) (p_closed p) (p_closeFn p) (p_latest p)
         (p_hasData p) e (p_dropped p).

Definition set_latest (msg : StateMessage) (p : peer) : peer :=
  mkPeer (p_conn p) (p_sendCh p) (p_closed p) (p_closeFn p) msg true
         (p_err p) (p_dropped p).

Definition add_dropped (msg : StateMessage) (p : peer) : peer :=
  mkPeer (p_conn p) (p_sendCh p) (p_closed p) (p_closeFn p) (p_latest p)
         (p_hasData p) (p_err p) (p_dropped p ++ [msg]).

(** [newPeer(conn)]; the two goroutines it starts are [readLoop] and
    [writeLoop] below, run by the environment. *)
Definition newPeer (conn : Conn) : peer :=
  mkPeer conn (make_chan defaultSendBufferSize) (make_chan 0) false
         StateMessage_zero false None [].

Definition peer_getErr (p : peer) : option error := p_err p.

Definition peer_setErr (err : option error) (p : peer) : peer :=
  match err with
  | None => p
  | Some e =>
      match p_err p with
      | None => set_err (Some e) p
      | Some _ => p
      end
  end.

Definition peer_latestState (p : peer) : StateMessage * bool :=
  if negb (p_hasData p) then (StateMessage_zero, false)
  else (p_latest p, true).

(** [p.close()]: the body runs under [closeFn.Do]. *)
Definition peer_close (p : peer) : outcome (option error * peer) :=
  if p_closeFn p then Returns (None, p)
  else
    c1 <- chan_close (p_closed p) ;;
    c2 <- chan_close (p_sendCh p) ;;
    let '(result, conn') := Conn_Close (p_conn p) in
    Returns (result,
             mkPeer conn' c2 c1 true (p_latest p) (p_hasData p) (p_err p)
                    (p_dropped p)).

(** The communications of the [select] statements of [send] and
    [writeLoop]. *)
Inductive comm : Type :=
| CommClosed        (* <-p.closed *)
| CommSend          (* p.sendCh <- state *)
| CommRecv.         (* <-p.sendCh *)

Definition closed_or_send (p : peer) : list comm :=
  offer (chan_recv_ready (p_closed p)) CommClosed ++
  offer (chan_send_ready (p_sendCh p)) CommSend.

Definition closed_or_recv (p : peer) : list comm :=
  offer (chan_recv_ready (p_closed p)) CommClosed ++
  offer (chan_recv_ready (p_sendCh p)) CommRecv.

(** [p.sendCh <- state] *)
Definition sendCh_push (state : StateMessage) (p : peer) : outcome peer :=
  c <- chan_send state (p_sendCh p) ;; Returns (set_sendCh c p).

(** [<-p.sendCh] with the value discarded: a value that was queued is
    logged as dropped; on a closed, empty channel nothing was queued. *)
Definition sendCh_discard (p : peer) : peer :=
  let '(v, ok, c) := chan_recv StateMessage_zero (p_sendCh p) in
  if ok then add_dropped v (set_sendCh c p) else set_sendCh c p.

(** A [select] of [send] either ends the call or lets it go on to the
    next one. *)
Inductive after_select (A : Type) : Type :=
| Done (r : outcome (A * peer))
| Next (p : peer).
Arguments Done {A} r.
Arguments Next {A} p.

(** The outer [select] of [send]. *)
Definition send_select1 (o : nat) (state : StateMessage) (p : peer)
  : after_select (option error) :=
  match pick o (closed_or_send p) with
  | Some CommClosed => Done (Returns (peer_getErr p, p))
  | Some CommSend => Done (p' <- sendCh_push state p ;; Returns (None, p'))
  | _ => Next p
  end.

(** The first [select] of the [default] branch: drop one queued entry. *)
Definition send_select2 (o : nat) (p : peer) : after_select (option error) :=
  match pick o (closed_or_recv p) with
  | Some CommClosed => Done (Returns (peer_getErr p, p))
  | Some CommRecv => Next (sendCh_discard p)
  | _ => Next p
  end.

(** The second [select] of the [default] branch: enqueue if there is room. *)
Definition send_select3 (o : nat) (state : StateMessage) (p : peer)
  : outcome (option error * peer) :=
  match pick o (closed_or_send p) with
  | Some CommClosed => Returns (peer_getErr p, p)
  | Some CommSend => p' <- sendCh_push state p ;; Returns (None, p')
  | _ => Returns (None, p)
  end.

(** [p.send(state)] with the other goroutines running between its
    [select] statements: [env1] and [env2] are what they do to the peer
    there. *)
Definition peer_send_among (env1 env2 : peer -> peer) (o1 o2 o3 : nat)
    (state : StateMessage) (p : peer) : outcome (option error * peer) :=
  match send_select1 o1 state p with
  | Done r => r
  | Next p1 =>
      match send_select2 o2 (env1 p1) with
      | Done r => r
      | Next p2 => send_select3 o3 state (env2 p2)
      end
  end.

(** [p.send(state)] running undisturbed. *)
Definition peer_send (o1 o2 o3 : nat) (state : StateMessage) (p : peer)
  : outcome (option error * peer) :=
  peer_send_among (fun q => q) (fun q => q) o1 o2 o3 state p.

(** How an iteration of a loop ends. *)
Inductive loop_status : Type :=
| Continue          (* the loop goes round again *)
| Stopped           (* the goroutine returned *)
| Blocked.          (* nothing can proceed yet *)

(** What [decoder.Decode(&msg)] produced. *)
Inductive decoded : Type :=
| DecodeOk (msg : StateMessage)
| DecodeErr (e : error).

(** One iteration of [readLoop]. *)
Definition readLoop_iter (d : decoded) (p : peer) : outcome (loop_status * peer) :=
  match d with
  | DecodeErr err =>
      let p1 := if negb (errors_Is err EOF)
                then peer_setErr (Some err) p
                else peer_setErr (Some EOF) p in
      '(_, p2) <- peer_close p1 ;;
      Returns (Stopped, p2)
  | DecodeOk msg => Returns (Continue, set_latest msg p)
  end.

(** [readLoop] over the results the decoder yields; it is [Blocked] in
    [Decode] when no further result has arrived. *)
Fixpoint readLoop (stream : list decoded) (p : peer) : outcome (loop_status * peer) :=
  match stream with
  | [] => Returns (Blocked, p)
  | d :: rest =>
      '(st, p') <- readLoop_iter d p ;;
      match st with
      | Continue => readLoop rest p'
      | _ => Returns (st, p')
      end
  end.

(** One iteration of [writeLoop]; [enc] is what [encoder.Encode(&msg)]
    returns if it is called. *)
Definition writeLoop_iter (o : nat) (enc : option error) (p : peer)
  : outcome (loop_status * peer) :=
  match pick o (closed_or_recv p) with
  | Some CommClosed => Returns (Stopped, p)
  | Some CommRecv =>
      let '(msg, ok, c) := chan_recv StateMessage_zero (p_sendCh p) in
      if negb ok then Returns (Stopped, set_sendCh c p)
      else
        match enc with
        | Some err =>
            '(_, p2) <- peer_close (peer_setErr (Some err) (set_sendCh c p)) ;;
            Returns (Stopped, p2)
        | None =>
            Returns (Continue, set_conn (Conn_Write msg (p_conn p)) (set_sendCh c p))
        end
  | _ => Returns (Blocked, p)
  end.

(** The writer transmitting up to [n] queued snapshots without a fault. *)
Fixpoint writer_drain (n : nat) (p : peer) : peer :=
  match n with
  | O => p
  | S k =>
      match writeLoop_iter 0 None p with
      | Returns (Continue, p') => writer_drain k p'
      | _ => p
      end
  end.

(** ** The Manager *)

(** The struct [Manager]; [m_closeOnce] is the [sync.Once]. *)
Record Manager : Type := mkManager {
  m_peer : option peer;
  m_listener : option Listener;
  m_closeOnce : bool;
  m_closed : chan unit;
  m_err : option error
}.

Definition set_peer (p : option peer) (m : Manager) : Manager :=
  mkManager p (m_listener m) (m_closeOnce m) (m_closed m) (m_err m).

Definition set_listener (l : option Listener) (m : Manager) : Manager :=
  mkManager (m_peer m) l (m_closeOnce m) (m_closed m) (m_err m).

Definition set_merr (e : option error) (m : Manager) : Manager :=
  mkManager (m_peer m) (m_listener m) (m_closeOnce m) (m_closed m) e.

Definition newManager (initialPeer : option peer) : Manager :=
  mkManager initialPeer None false (make_chan 0) None.

Definition defaultListenAddress : string := ":4000".
Definition defaultDialAddress : string := "127.0.0.1:4000".

(** What [net.Listen] and [net.DialTimeout] produce. *)
Inductive listened : Type :=
| ListenOk (l : Listener)
| ListenErr (e : error).

Inductive dialed : Type :=
| DialOk (c : Conn)
| DialErr (e : error).

(** [Host(address)]; the accept task it starts is [acceptOnce] below. *)
Definition Host (listen : string -> listened) (address : string)
  : option Manager * option error :=
  let address := if String.eqb address EmptyString then defaultListenAddress else address in
  match listen address with
  | ListenErr err => (None, Some err)
  | ListenOk listener => (Some (set_listener (Some listener) (newManager None)), None)
  end.

(** [Join(address)] *)
Definition Join (dial : string -> dialed) (address : string)
  : option Manager * option error :=
  let address := if String.eqb address EmptyString then defaultDialAddress else address in
  match dial address with
  | DialErr err => (None, Some err)
  | DialOk conn => (Some (newManager (Some (newPeer conn))), None)
  end.

Definition getPeer (m : Manager) : option peer := m_peer m.

Definition getListener (m : Manager) : option Listener := m_listener m.

Definition swapListener (next : option Listener) (m : Manager)
  : option Listener * Manager :=
  (m_listener m, set_listener next m).

Definition Manager_setErr (err : option error) (m : Manager) : Manager :=
  match err with
  | None => m
  | Some e =>
      match m_err m with
      | None => set_merr (Some e) m
      | Some _ => m
      end
  end.

Definition Manager_getErr (m : Manager) : option error := m_err m.

(** [isClosed]: a [select] on [<-m.closed] with a [default]. *)
Definition isClosed (m : Manager) : bool := chan_recv_ready (m_closed m).

(** [Manager.Send] *)
Definition Manager_Send (o1 o2 o3 : nat) (state : StateMessage) (m : option Manager)
  : outcome (option error * option Manager) :=
  match m with
  | None => Returns (None, None)
  | Some m =>
      match getPeer m with
      | Some p =>
          '(e, p') <- peer_send o1 o2 o3 state p ;;
          Returns (e, Some (set_peer (Some p') m))
      | None => Returns (None, Some m)
      end
  end.

(** [Manager.LatestState] *)
Definition Manager_LatestState (m : option Manager) : StateMessage * bool :=
  match m with
  | None => (StateMessage_zero, false)
  | Some m =>
      match getPeer m with
      | Some p => peer_latestState p
      | None => (StateMessage_zero, false)
      end
  end.

(** [Manager.Err] *)
Definition Manager_Err (m : option Manager) : option error :=
  match m with
  | None => None
  | Some m =>
      match Manager_getErr m with
      | Some err => Some err
      | None =>
          match getPeer m with
          | Some p => peer_getErr p
          | None => None
          end
      end
  end.

(** What a call of [Close] leaves: its result, the Manager, and the
    listener object it closed, if it held one. *)
Record close_end : Type := mkCloseEnd {
  ce_err : option error;
  ce_mgr : option Manager;
  ce_listener : option Listener
}.

(** [Manager.Close]; the teardown runs under [closeOnce.Do]. *)
Definition Manager_Close (m : option Manager) : outcome close_end :=
  match m with
  | None => Returns (mkCloseEnd None None None)
  | Some m =>
      if m_closeOnce m then Returns (mkCloseEnd None (Some m) None)
      else
        c <- chan_close (m_closed m) ;;
        let m1 := mkManager (m_peer m) (m_listener m) true c (m_err m) in
        let '(prev, m2) := swapListener None m1 in
        let '(result, released) :=
          match prev with
          | Some listener =>
              let '(err, l') := Listener_Close listener in
              (match err with
               | Some e => if negb (errors_Is e ErrClosed) then Some e else None
               | None => None
               end, Some l')
          | None => (None, None)
          end in
        match getPeer m2 with
        | Some p =>
            '(err, p') <- peer_close p ;;
            let result' :=
              match err, result with
              | Some e, None => if negb (errors_Is e ErrClosed) then Some e else result
              | _, _ => result
              end in
            Returns (mkCloseEnd result' (Some (set_peer (Some p') m2)) released)
        | None => Returns (mkCloseEnd result (Some m2) released)
        end
  end.

(** The part of [acceptOnce] after [listener.Accept()] has returned [r]:
    the new Manager and the connection it closed unused, if any. *)
Definition acceptOnce_after (r : accepted) (m : Manager)
  : outcome (Manager * option Conn) :=
  match r with
  | AcceptErr err =>
      Returns (if negb (errors_Is err ErrClosed)
               then Manager_setErr (Some err) m else m, None)
  | AcceptConn conn =>
      if isClosed m then
        let '(_, conn') := Conn_Close conn in Returns (m, Some conn')
      else
        let newPeer := newPeer conn in
        match m_peer m with
        | Some _ =>
            '(_, np) <- peer_close newPeer ;; Returns (m, Some (p_conn np))
        | None => Returns (set_peer (Some newPeer) m, None)
        end
  end.

(** What the accept task leaves: the Manager, the number of [Accept]
    calls it made, and the connection it closed unused, if any. *)
Record accept_end : Type := mkAcceptEnd {
  ae_mgr : Manager;
  ae_accepts : nat;
  ae_discarded : option Conn
}.

(** [Manager.acceptOnce], run undisturbed; [net] is what the network
    hands to [Accept].  The deferred [listener.Close()] acts on the
    listener object, which [m.listener] still refers to. *)
Definition acceptOnce (net : accepted) (m : Manager) : outcome accept_end :=
  match getListener m with
  | None => Returns (mkAcceptEnd m 0 None)
  | Some listener =>
      let '(r, l1) := Listener_Accept net listener in
      '(m1, discarded) <- acceptOnce_after r m ;;
      let '(_, l2) := Listener_Close l1 in
      Returns (mkAcceptEnd (set_listener (Some l2) m1)
                           (l_acceptCalls l2 - l_acceptCalls listener)
                           discarded)
  end.

(** ** Well-formed states *)

(** The channels of a peer are closed by [close] alone, both under its
    [sync.Once], which also closes the connection; the queue has the
    capacity [newPeer] gave it. *)
Definition peer_inv (p : peer) : Prop :=
  ch_closed (p_closed p) = p_closeFn p /\
  ch_closed (p_sendCh p) = p_closeFn p /\
  ch_buf (p_closed p) = [] /\
  ch_cap (p_sendCh p) = defaultSendBufferSize /\
  length (ch_buf (p_sendCh p)) <= defaultSendBufferSize /\
  implb (p_closeFn p) (conn_closed (p_conn p)) = true.

Definition Manager_inv (m : Manager) : Prop :=
  ch_closed (m_closed m) = m_closeOnce m /\
  ch_buf (m_closed m) = [] /\
  match m_peer m with
  | Some p => peer_inv p
  | None => True
  end.

(** An open peer: [close] has not run. *)
Definition peer_open (p : peer) : Prop := p_closeFn p = false.

(** ** The life of a peer and of a Manager *)

(** One thing that happens to a peer: a call of one of its methods by the
    Manager, or an iteration of its reader or of its writer. *)
Inductive peer_step : peer -> peer -> Prop :=
| PS_setErr (e : option error) (p : peer) :
    peer_step p (peer_setErr e p)
| PS_send (o1 o2 o3 : nat) (state : StateMessage) (p p' : peer) (r : option error) :
    peer_send o1 o2 o3 state p = Returns (r, p') -> peer_step p p'
| PS_close (p p' : peer) (r : option error) :
    peer_close p = Returns (r, p') -> peer_step p p'
| PS_read (d : decoded) (p p' : peer) (st : loop_status) :
    readLoop_iter d p = Returns (st, p') -> peer_step p p'
| PS_write (o : nat) (enc : option error) (p p' : peer) (st : loop_status) :
    writeLoop_iter o enc p = Returns (st, p') -> peer_step p p'.

Inductive peer_steps : peer -> peer -> Prop :=
| peer_steps_refl (p : peer) : peer_steps p p
| peer_steps_next (p q r : peer) : peer_step p q -> peer_steps q r -> peer_steps p r.

(** One thing that happens to a Manager: a call of one of its methods, the
    accept task (whole, or only its part after [Accept] returned), or a
    step of the bound peer. *)
Inductive Manager_step : Manager -> Manager -> Prop :=
| MS_Send (o1 o2 o3 : nat) (state : StateMessage) (m m' : Manager) (r : option error) :
    Manager_Send o1 o2 o3 state (Some m) = Returns (r, Some m') -> Manager_step m m'
| MS_Close (m m' : Manager) (c : close_end) :
    Manager_Close (Some m) = Returns c -> ce_mgr c = Some m' -> Manager_step m m'
| MS_accept (net : accepted) (m : Manager) (e : accept_end) :
    acceptOnce net m = Returns e -> Manager_step m (ae_mgr e)
| MS_accept_after (r : accepted) (m m' : Manager) (d : option Conn) :
    acceptOnce_after r m = Returns (m', d) -> Manager_step m m'
| MS_peer (m : Manager) (p p' : peer) :
    m_peer m = Some p -> peer_step p p' -> Manager_step m (set_peer (Some p') m).

Inductive Manager_steps : Manager -> Manager -> Prop :=
| Manager_steps_refl (m : Manager) : Manager_steps m m
| Manager_steps_next (m n k : Manager) :
    Manager_step m n -> Manager_steps n k -> Manager_steps m k.

(** The connection a Manager is bound to, if it is bound. *)
Definition bound_to (m : Manager) : option string :=
  match m_peer m with
  | Some p => Some (conn_remote (p_conn p))
  | None => None
  end.

(** ** What the specification's words denote *)

(** The first fault of a history of recorded values ([None] records
    nothing). *)
Fixpoint first_fault (history : list (option error)) : option error :=
  match history with
  | [] => None
  | Some e :: _ => Some e
  | None :: rest => first_fault rest
  end.

(** A sequence of [setErr] calls on a peer, and on a Manager. *)
Definition peer_setErrs (errs : list (option error)) (p : peer) : peer :=
  fold_left (fun q e => peer_setErr e q) errs p.

Definition Manager_setErrs (errs : list (option error)) (m : Manager) : Manager :=
  fold_left (fun q e => Manager_setErr e q) errs m.

(** An error is benign for [Close] when it is nil or an "already closed"
    condition. *)
Definition benign (e : option error) : bool :=
  match e with
  | None => true
  | Some err => errors_Is err ErrClosed
  end.

(** The first non-benign error of the ones a teardown met, in order. *)
Fixpoint first_non_benign (errs : list (option error)) : option error :=
  match errs with
  | [] => None
  | e :: rest => if benign e then first_non_benign rest else e
  end.

(** The errors the teardown of [Close] meets: what closing the held
    listener returns, and what closing the bound peer returns. *)
Definition listener_close_error (m : Manager) : option error :=
  match m_listener m with
  | Some l => fst (Listener_Close l)
  | None => None
  end.

Definition peer_close_error (m : Manager) : option error :=
  match m_peer m with
  | Some p =>
      match peer_close p with
      | Returns (e, _) => e
      | Panics _ => None
      end
  | None => None
  end.

(** A call of [Close] that does nothing: nil, the Manager as it is, no
    listener closed. *)
Definition Close_noop (m : option Manager) : close_end := mkCloseEnd None m None.

(** [n] successive calls of [Close]: what each of them left. *)
Fixpoint Close_calls (n : nat) (m : option Manager) : outcome (list close_end) :=
  match n with
  | O => Returns []
  | S k =>
      r <- Manager_Close m ;;
      rest <- Close_calls k (ce_mgr r) ;;
      Returns (r :: rest)
  end.

(** ** Concrete states used as examples *)

Definition conn0 : Conn := mkConn "10.0.0.2:50000" false None 0 [].

Definition listener0 : Listener := mkListener false None 0 0.

Definition snapshot (x : Z) : StateMessage :=
  mkStateMessage (mkPlayerState x 2%Z 0%Z 0%Z false true)
                 [mkBulletState x 1%Z 5%Z].

(** A peer whose queue holds the snapshots 1..8. *)
Definition full_peer : peer :=
  set_sendCh (mkChan (map snapshot [1; 2; 3; 4; 5; 6; 7; 8]%Z)
                     defaultSendBufferSize false)
             (newPeer conn0).

(** The peer after its reader met the end of the stream. *)
Definition ended_peer : peer :=
  mkPeer (mkConn "10.0.0.2:50000" true None 1 []) (mkChan [] defaultSendBufferSize true)
         (mkChan [] 0 true) true StateMessage_zero false (Some EOF) [].

(** The Manager [Host] returns, awaiting a client. *)
Definition hosting : Manager := set_listener (Some listener0) (newManager None).

(** The Manager [Host] returned, after [Close]. *)
Definition hosting_closed : Manager :=
  mkManager None None true (mkChan [] 0 true) None.

(** A connection whose [Close] fails, and the Manager [Host] returned
    after its accept task bound a Peer on that connection. *)
Definition conn1 : Conn :=
  mkConn "10.0.0.3:50000" false (Some (ErrOther "i/o timeout")) 0 [].

Definition hosting_bound : Manager :=
  mkManager (Some (newPeer conn1)) (Some (mkListener true None 1 1)) false
            (make_chan 0) None.

(** ** Sequences of calls on a peer *)

(** Successive calls of [send], each with its [select] choices. *)
Fixpoint peer_send_all (calls : list (nat * nat * nat * StateMessage)) (p : peer)
  : outcome (list (option error) * peer) :=
  match calls with
  | [] => Returns ([], p)
  | (o1, o2, o3, state) :: rest =>
      '(r, p1) <- peer_send o1 o2 o3 state p ;;
      '(rs, p2) <- peer_send_all rest p1 ;;
      Returns (r :: rs, p2)
  end.


(** Two states of a peer that differ at most in the queue and in the log
    of dropped snapshots. *)
Definition same_but_queue (p p' : peer) : Prop :=
  p_conn p' = p_conn p /\ p_closed p' = p_closed p /\ p_closeFn p' = p_closeFn p /\
  p_latest p' = p_latest p /\ p_hasData p' = p_hasData p /\ p_err p' = p_err p.

(** The last [k] elements of a list, and the ones before them. *)
Definition keep_last {A : Type} (k : nat) (l : list A) : list A :=
  skipn (length l - k) l.

Definition overflow {A : Type} (k : nat) (l : list A) : list A :=
  firstn (length l - k) l.

(** ** The game's side of the transport: packages [entities] and [game] *)

Module entities.

(** [entities.Player] *)
Record Player : Type := mkPlayer {
  pl_X : float64;
  pl_Y : float64;
  pl_VelocityX : float64;
  pl_VelocityY : float64;
  pl_OnGround : bool;
  pl_FacingRight : bool
}.

(** [entities.NewPlayer] *)
Definition NewPlayer (x y : float64) : Player :=
  mkPlayer x y 0%Z 0%Z false true.

(** [entities.Bullet] *)
Record Bullet : Type := mkBullet {
  bu_X : float64;
  bu_Y : float64;
  bu_VelocityX : float64;
  bu_Width : float64;
  bu_Height : float64
}.

(** [entities.NewBullet] *)
Definition NewBullet (x y velocityX width height : float64) : Bullet :=
  mkBullet x y velocityX width height.

(** [entities.Platform] and [entities.NPC]: carried by the game, not
    touched by the transport. *)
Record Platform : Type := mkPlatform {
  pf_X : float64;
  pf_Y : float64;
  pf_Width : float64;
  pf_Height : float64
}.

Record NPC : Type := mkNPC {
  npc_X : float64;
  npc_Y : float64;
  npc_Width : float64;
  npc_Height : float64;
  npc_FacingRight : bool
}.

End entities.

(** [game.Camera] *)
Record Camera : Type := mkCamera {
  cam_X : float64;
  cam_Y : float64
}.

(** [game.Mode] and its three constants. *)
Definition Mode : Type := string.
Definition ModeLocal : Mode := "local"%string.
Definition ModeHost : Mode := "host"%string.
Definition ModeClient : Mode := "client"%string.

Record Options : Type := mkOptions {
  opt_Mode : Mode;
  opt_Address : string
}.

(** [game.Game] *)
Record Game : Type := mkGame {
  g_player : entities.Player;
  g_platforms : list entities.Platform;
  g_bullets : list entities.Bullet;
  g_npcs : list entities.NPC;
  g_camera : Camera;
  g_remote : option entities.Player;
  g_enemyFire : list entities.Bullet;
  g_net : option Manager;
  g_options : Options;
  g_prevShootKeyPressed : bool
}.

Definition set_remote (r : option entities.Player) (fire : list entities.Bullet)
    (g : Game) : Game :=
  mkGame (g_player g) (g_platforms g) (g_bullets g) (g_npcs g) (g_camera g)
         r fire (g_net g) (g_options g) (g_prevShootKeyPressed g).

Definition set_net (net : option Manager) (g : Game) : Game :=
  mkGame (g_player g) (g_platforms g) (g_bullets g) (g_npcs g) (g_camera g)
         (g_remote g) (g_enemyFire g) net (g_options g) (g_prevShootKeyPressed g).

(** [startNetwork(opts)] *)
Definition startNetwork (listen : string -> listened) (dial : string -> dialed)
    (opts : Options) : option Manager * option error :=
  if String.eqb (opt_Mode opts) ModeLocal || String.eqb (opt_Mode opts) EmptyString
  then (None, None)
  else if String.eqb (opt_Mode opts) ModeHost then Host listen (opt_Address opts)
  else if String.eqb (opt_Mode opts) ModeClient then Join dial (opt_Address opts)
  else (None, Some (ErrOther (String.append "unknown game mode: " (opt_Mode opts)))).

(** [buildLocalState]: the player's fields, and the bullets appended one
    by one in the order of [g.bullets]. *)
Definition buildLocalState (g : Game) : StateMessage :=
  let player := g_player g in
  mkStateMessage
    (mkPlayerState (entities.pl_X player) (entities.pl_Y player) (entities.pl_VelocityX player)
                   (entities.pl_VelocityY player) (entities.pl_OnGround player) (entities.pl_FacingRight player))
    (fold_left (fun bullets bullet =>
                  bullets ++ [mkBulletState (entities.bu_X bullet) (entities.bu_Y bullet)
                                            (entities.bu_VelocityX bullet)])
               (g_bullets g) []).

(** The six assignments of [applyRemoteState] to the remote player. *)
Definition assign_remote (s : PlayerState) (r : entities.Player) : entities.Player :=
  let r := entities.mkPlayer (ps_X s) (entities.pl_Y r) (entities.pl_VelocityX r) (entities.pl_VelocityY r)
                    (entities.pl_OnGround r) (entities.pl_FacingRight r) in
  let r := entities.mkPlayer (entities.pl_X r) (ps_Y s) (entities.pl_VelocityX r) (entities.pl_VelocityY r)
                    (entities.pl_OnGround r) (entities.pl_FacingRight r) in
  let r := entities.mkPlayer (entities.pl_X r) (entities.pl_Y r) (ps_VelocityX s) (entities.pl_VelocityY r)
                    (entities.pl_OnGround r) (entities.pl_FacingRight r) in
  let r := entities.mkPlayer (entities.pl_X r) (entities.pl_Y r) (entities.pl_VelocityX r) (ps_VelocityY s)
                    (entities.pl_OnGround r) (entities.pl_FacingRight r) in
  let r := entities.mkPlayer (entities.pl_X r) (entities.pl_Y r) (entities.pl_VelocityX r) (entities.pl_VelocityY r)
                    (ps_OnGround s) (entities.pl_FacingRight r) in
  entities.mkPlayer (entities.pl_X r) (entities.pl_Y r) (entities.pl_VelocityX r) (entities.pl_VelocityY r)
           (entities.pl_OnGround r) (ps_FacingRight s).

(** [applyRemoteState(state)]; [BulletWidth] and [BulletHeight] are the
    constants of package [config].  The slice [g.enemyFire] is emptied
    ([make] with length 0, or [g.enemyFire[:0]]) and filled again. *)
Definition applyRemoteState (BulletWidth BulletHeight : float64)
    (state : StateMessage) (g : Game) : Game :=
  let remote :=
    match g_remote g with
    | None => entities.NewPlayer (ps_X (Player state)) (ps_Y (Player state))
    | Some r => r
    end in
  let remote := assign_remote (Player state) remote in
  let enemyFire := firstn 0 (g_enemyFire g) in
  let enemyFire :=
    fold_left (fun fire bullet =>
                 fire ++ [entities.NewBullet (bs_X bullet) (bs_Y bullet) (bs_VelocityX bullet)
                                    BulletWidth BulletHeight])
              (Bullets state) enemyFire in
  set_remote (Some remote) enemyFire g.

(** [updateNetwork], run undisturbed. *)
Definition updateNetwork (BulletWidth BulletHeight : float64) (o1 o2 o3 : nat)
    (g : Game) : outcome (option error * Game) :=
  match g_net g with
  | None => Returns (None, g)
  | Some _ =>
      let '(state, ok) := Manager_LatestState (g_net g) in
      let g1 := if ok then applyRemoteState BulletWidth BulletHeight state g else g in
      '(err, net) <- Manager_Send o1 o2 o3 (buildLocalState g1) (g_net g1) ;;
      let g2 := set_net net g1 in
      match err with
      | Some e => Returns (Some e, g2)
      | None =>
          match Manager_Err (g_net g2) with
          | Some e => Returns (Some e, g2)
          | None => Returns (None, g2)
          end
      end
  end.

(** ** Basic facts *)

Ltac split_all := repeat match goal with |- _ /\ _ => split end.

Lemma pick_one {A : Type} (o : nat) (x : A) : pick o [x] = Some x.
Proof.
  unfold pick. cbn [length].
  rewrite Nat.mod_1_r. reflexivity.
Qed.

Lemma pick_two {A : Type} (o : nat) (x y : A) :
  pick o [x; y] = Some x \/ pick o [x; y] = Some y.
Proof.
  unfold pick. cbn [length].
  assert (H : o mod 2 < 2) by (apply Nat.mod_upper_bound; discriminate).
  destruct (o mod 2) as [|[|k]]; [left | right | lia]; reflexivity.
Qed.

Lemma error_eqb_eq (a b : error) : error_eqb a b = true <-> a = b.
Proof.
  unfold error_eqb. destruct (error_eq_dec a b); split; congruence.
Qed.

Lemma errors_Is_refl (e : error) : errors_Is e e = true.
Proof.
  assert (H : error_eqb e e = true) by (apply error_eqb_eq; reflexivity).
  destruct e; cbn [errors_Is]; rewrite H; reflexivity.
Qed.

Lemma newPeer_inv (c : Conn) : peer_inv (newPeer c).
Proof. unfold peer_inv, newPeer, defaultSendBufferSize; cbn. repeat split; lia. Qed.

Lemma peer_setErr_fields (e : option error) (p : peer) :
  p_conn (peer_setErr e p) = p_conn p /\
  p_sendCh (peer_setErr e p) = p_sendCh p /\
  p_closed (peer_setErr e p) = p_closed p /\
  p_closeFn (peer_setErr e p) = p_closeFn p /\
  p_latest (peer_setErr e p) = p_latest p /\
  p_hasData (peer_setErr e p) = p_hasData p /\
  p_dropped (peer_setErr e p) = p_dropped p.
Proof.
  destruct e as [e|]; cbn; [destruct (p_err p); cbn |]; repeat split.
Qed.

Lemma peer_setErr_inv (e : option error) (p : peer) :
  peer_inv p -> peer_inv (peer_setErr e p).
Proof.
  unfold peer_inv.
  destruct (peer_setErr_fields e p) as (-> & -> & -> & -> & _). trivial.
Qed.

Lemma Conn_Close_closed (c : Conn) :
  conn_closed (snd (Conn_Close c)) = true /\
  conn_closeCalls (snd (Conn_Close c)) = S (conn_closeCalls c) /\
  conn_wire (snd (Conn_Close c)) = conn_wire c.
Proof. unfold Conn_Close. destruct (conn_closed c); cbn; repeat split. Qed.

(** [close] returns on every well-formed peer and leaves it closed. *)
Lemma peer_close_returns (p : peer) :
  peer_inv p ->
  exists result p',
    peer_close p = Returns (result, p') /\
    p_closeFn p' = true /\ peer_inv p' /\
    p_err p' = p_err p /\ p_latest p' = p_latest p /\
    p_hasData p' = p_hasData p /\
    result = (if p_closeFn p then None else fst (Conn_Close (p_conn p))) /\
    p_conn p' = (if p_closeFn p then p_conn p else snd (Conn_Close (p_conn p))).
Proof.
  intros (H1 & H2 & H3 & H4 & H5 & H6).
  unfold peer_close.
  destruct (p_closeFn p) eqn:Hfn.
  - exists None, p. unfold peer_inv. rewrite Hfn. split_all; trivial.
  - unfold chan_close. rewrite H1, H2. cbn [bind].
    destruct (Conn_Close_closed (p_conn p)) as (Hcl & _).
    destruct (Conn_Close (p_conn p)) as [result conn'] eqn:Hc.
    exists result, (mkPeer conn' (mkChan (ch_buf (p_sendCh p)) (ch_cap (p_sendCh p)) true)
                      (mkChan (ch_buf (p_closed p)) (ch_cap (p_closed p)) true) true
                      (p_latest p) (p_hasData p) (p_err p) (p_dropped p)).
    unfold peer_inv; cbn in *. split_all; trivial.
Qed.

(** A closed well-formed peer has both channels and the connection
    closed. *)
Lemma closed_peer_is_shut (p : peer) :
  peer_inv p ->
  p_closeFn p = true ->
  ch_closed (p_closed p) = true /\
  ch_closed (p_sendCh p) = true /\
  conn_closed (p_conn p) = true.
Proof.
  intros (H1 & H2 & _ & _ & _ & H6) Hfn.
  rewrite Hfn in *. cbn in H6. split_all; assumption.
Qed.

(** ** The sticky errors *)

Lemma set_err_same (p : peer) : set_err (p_err p) p = p.
Proof. destruct p; reflexivity. Qed.

Lemma set_merr_same (m : Manager) : set_merr (m_err m) m = m.
Proof. destruct m; reflexivity. Qed.

(** A sequence of [setErr] calls changes the error field alone, to the
    first fault of the history. *)
Lemma peer_setErrs_spec (errs : list (option error)) (p : peer) :
  peer_setErrs errs p = set_err (first_fault (p_err p :: errs)) p.
Proof.
  unfold peer_setErrs. revert p.
  induction errs as [|e errs IH]; intros p; cbn [fold_left].
  - destruct (p_err p) eqn:He; cbn [first_fault]; rewrite <- He; symmetry; apply set_err_same.
  - rewrite IH. destruct e as [e|]; cbn [peer_setErr].
    + destruct (p_err p) eqn:He; cbn [first_fault].
      * rewrite He. reflexivity.
      * destruct p; reflexivity.
    + destruct (p_err p); reflexivity.
Qed.

Lemma Manager_setErrs_spec (errs : list (option error)) (m : Manager) :
  Manager_setErrs errs m = set_merr (first_fault (m_err m :: errs)) m.
Proof.
  unfold Manager_setErrs. revert m.
  induction errs as [|e errs IH]; intros m; cbn [fold_left].
  - destruct (m_err m) eqn:He; cbn [first_fault]; rewrite <- He; symmetry; apply set_merr_same.
  - rewrite IH. destruct e as [e|]; cbn [Manager_setErr].
    + destruct (m_err m) eqn:He; cbn [first_fault].
      * rewrite He. reflexivity.
      * destruct m; reflexivity.
    + destruct (m_err m); reflexivity.
Qed.

(** ** The Manager facade without a Peer *)

(** C10: every public method of the Manager is safe on a nil receiver:
    [Send] returns nil, [LatestState] the zero-value snapshot with false,
    [Err] nil and [Close] nil, none of them panicking. *)
Theorem nil_Manager_is_safe :
  forall (o1 o2 o3 : nat) (state : StateMessage),
    Manager_Send o1 o2 o3 state None = Returns (None, None) /\
    Manager_LatestState None = (StateMessage_zero, false) /\
    Manager_Err None = None /\
    Manager_Close None = Returns (mkCloseEnd None None None).
Proof. intros; repeat split. Qed.

(** C4: on a Manager with no bound Peer, [LatestState] returns the
    zero-value snapshot paired with false, and [Send] returns nil and leaves
    the Manager as it was. *)
Theorem unbound_Manager_is_inert :
  forall (m : Manager) (o1 o2 o3 : nat) (state : StateMessage),
    m_peer m = None ->
    Manager_LatestState (Some m) = (StateMessage_zero, false) /\
    Manager_Send o1 o2 o3 state (Some m) = Returns (None, Some m).
Proof.
  intros m o1 o2 o3 state Hp.
  unfold Manager_LatestState, Manager_Send, getPeer. rewrite Hp. split; reflexivity.
Qed.

Lemma unbound_Manager_is_inert_hosting :
  m_peer hosting = None /\
  Manager_LatestState (Some hosting) = (StateMessage_zero, false) /\
  Manager_Send 0 1 2 (snapshot 1) (Some hosting) = Returns (None, Some hosting).
Proof.
  split; [reflexivity | apply (unbound_Manager_is_inert hosting 0 1 2 (snapshot 1)); reflexivity].
Defined.

(** ** The outbound queue *)

(** On an open peer the writer moves the oldest [n] queued snapshots (all
    of them if fewer are queued) onto the wire and touches nothing else. *)
Lemma writer_drain_open (n : nat) :
  forall ca cc ce ck w buf cap c2 lat has err dr,
    writer_drain n (mkPeer (mkConn ca cc ce ck w) (mkChan buf cap false)
                           (mkChan [] c2 false) false lat has err dr) =
    mkPeer (mkConn ca cc ce ck (w ++ firstn n buf)) (mkChan (skipn n buf) cap false)
           (mkChan [] c2 false) false lat has err dr.
Proof.
  induction n as [|n IH]; intros.
  - cbn. rewrite app_nil_r. reflexivity.
  - destruct buf as [|s buf].
    + cbn. rewrite app_nil_r. reflexivity.
    + cbn [writer_drain]. unfold writeLoop_iter, closed_or_recv.
      cbn -[writer_drain firstn skipn].
      unfold set_conn, set_sendCh, Conn_Write.
      cbn [p_conn p_sendCh p_closed p_closeFn p_latest p_hasData p_err p_dropped
           conn_remote conn_closed conn_closeErr conn_closeCalls conn_wire].
      rewrite IH. cbn [firstn skipn]. rewrite <- app_assoc. reflexivity.
Qed.

(** A call of [send] that finds the queue of an open peer full, with the
    writer transmitting [n1] and [n2] snapshots between its steps: the
    state it leaves.  The writer takes the oldest [n1]; [send] discards the
    oldest that is left, if any; the writer takes [n2] more; the new
    snapshot goes last. *)
Lemma send_overflow_state (o1 o2 o3 n1 n2 : nat) (state : StateMessage) :
  forall ca cc ce ck w buf c2 lat has err dr,
    length buf = defaultSendBufferSize ->
    peer_send_among (writer_drain n1) (writer_drain n2) o1 o2 o3 state
      (mkPeer (mkConn ca cc ce ck w) (mkChan buf defaultSendBufferSize false)
              (mkChan [] c2 false) false lat has err dr) =
    Returns (None,
      mkPeer (mkConn ca cc ce ck
                (w ++ firstn n1 buf ++ firstn n2 (tl (skipn n1 buf))))
             (mkChan (skipn n2 (tl (skipn n1 buf)) ++ [state])
                     defaultSendBufferSize false)
             (mkChan [] c2 false) false lat has err
             (dr ++ firstn 1 (skipn n1 buf))).
Proof.
  intros ca cc ce ck w buf c2 lat has err dr Hfull.
  unfold peer_send_among, send_select1, closed_or_send, chan_recv_ready, chan_send_ready.
  cbn [p_closed p_sendCh ch_buf ch_closed ch_cap length Nat.eqb negb orb offer app].
  rewrite Hfull, Nat.ltb_irrefl. cbn [offer pick].
  rewrite writer_drain_open.
  unfold send_select2, closed_or_recv, chan_recv_ready.
  cbn [p_closed p_sendCh ch_buf ch_closed ch_cap length Nat.eqb negb orb offer app].
  assert (Hlen : length (skipn n1 buf) <= defaultSendBufferSize)
    by (rewrite length_skipn; lia).
  destruct (skipn n1 buf) as [|d rest].
  - (* the writer emptied the queue: nothing is left to discard *)
    cbn [length Nat.eqb negb orb offer app pick tl firstn].
    rewrite writer_drain_open.
    assert (Hf : firstn n2 (@nil StateMessage) = []) by (destruct n2; reflexivity).
    assert (Hs : skipn n2 (@nil StateMessage) = []) by (destruct n2; reflexivity).
    rewrite Hf, Hs.
    unfold send_select3, closed_or_send, chan_recv_ready, chan_send_ready.
    cbn [p_closed p_sendCh ch_buf ch_closed ch_cap length Nat.eqb negb orb offer app].
    unfold defaultSendBufferSize at 1. cbn [Nat.ltb Nat.leb offer].
    rewrite pick_one. unfold sendCh_push, chan_send, set_sendCh. cbn.
    rewrite !app_nil_r. reflexivity.
  - (* one queued snapshot is discarded *)
    cbn [length Nat.eqb negb orb offer app tl firstn]. rewrite pick_one.
    unfold sendCh_discard. cbn [chan_recv p_sendCh ch_buf ch_cap ch_closed].
    unfold add_dropped, set_sendCh.
    cbn [p_conn p_sendCh p_closed p_closeFn p_latest p_hasData p_err p_dropped].
    rewrite writer_drain_open.
    unfold send_select3, closed_or_send, chan_recv_ready, chan_send_ready.
    cbn [p_closed p_sendCh ch_buf ch_closed ch_cap length Nat.eqb negb orb offer app].
    assert (Hroom : (length (skipn n2 rest) <? defaultSendBufferSize) = true).
    { apply Nat.ltb_lt. rewrite length_skipn. cbn [length] in Hlen. lia. }
    rewrite Hroom. cbn [offer]. rewrite pick_one.
    unfold sendCh_push, chan_send, set_sendCh. cbn.
    rewrite <- app_assoc. reflexivity.
Qed.

Lemma firstn_1_tl {A : Type} (l : list A) : firstn 1 l ++ tl l = l.
Proof. destruct l; reflexivity. Qed.

Lemma length_tl_room {A : Type} (l : list A) (n : nat) :
  0 < n -> length l <= n -> length (tl l) + 1 <= n.
Proof. destruct l; cbn; lia. Qed.

Lemma send_buffer_positive : 0 < defaultSendBufferSize.
Proof. unfold defaultSendBufferSize. lia. Qed.

(** On an open peer [send] returns nil whatever the [select] choices
    are, and the peer stays open. *)
Lemma send_open_returns_nil (p : peer) (state : StateMessage) (o1 o2 o3 : nat) :
  peer_inv p ->
  peer_open p ->
  exists p',
    peer_send o1 o2 o3 state p = Returns (None, p') /\
    peer_inv p' /\ peer_open p' /\ p_err p' = p_err p /\
    last (ch_buf (p_sendCh p')) StateMessage_zero = state.
Proof.
  intros Hinv Hopen.
  destruct (Nat.ltb (length (ch_buf (p_sendCh p))) defaultSendBufferSize) eqn:Hroom.
  - (* room in the queue: the outer select enqueues *)
    destruct p as [conn [buf cap cl] [b2 c2 cl2] fn lat has err dr].
    unfold peer_inv, peer_open in *.
    cbn [p_closed p_sendCh p_closeFn ch_buf ch_closed ch_cap] in *.
    destruct Hinv as (H1 & H2 & H3 & H4 & H5 & H6). subst.
    unfold peer_send, peer_send_among, send_select1, closed_or_send,
      chan_recv_ready, chan_send_ready.
    cbn [p_closed p_sendCh ch_buf ch_closed ch_cap length Nat.eqb negb orb offer app].
    rewrite Hroom. cbn [offer]. rewrite pick_one. cbn.
    eexists. split; [reflexivity |]. unfold set_sendCh. cbn.
    split_all; try reflexivity.
    + rewrite length_app. cbn. apply Nat.ltb_lt in Hroom. lia.
    + apply last_last.
  - (* the queue is full *)
    destruct p as [[ca cc ce ck w] [buf cap cl] [b2 c2 cl2] fn lat has err dr].
    unfold peer_inv, peer_open in *.
    cbn [p_closed p_sendCh p_closeFn p_conn ch_buf ch_closed ch_cap] in *.
    destruct Hinv as (H1 & H2 & H3 & H4 & H5 & H6). subst.
    assert (Hfull : length buf = defaultSendBufferSize)
      by (apply Nat.ltb_ge in Hroom; lia).
    eexists. split.
    + exact (send_overflow_state o1 o2 o3 0 0 state _ _ _ _ _ _ _ _ _ _ _ Hfull).
    + cbn [p_closed p_sendCh p_closeFn p_conn p_err ch_buf ch_closed ch_cap skipn].
      split_all; try reflexivity.
      * rewrite length_app. cbn [length].
        apply (length_tl_room _ _ send_buffer_positive H5).
      * apply last_last.
Qed.

(** On a closed peer both communications of the outer [select] of [send]
    can proceed: the receive from [p.closed], which returns the sticky
    error, and the send on the closed queue, which panics. *)
Lemma send_closed_cases (p : peer) (state : StateMessage) (o1 o2 o3 : nat) :
  peer_inv p ->
  p_closeFn p = true ->
  peer_send 0 o2 o3 state p = Returns (peer_getErr p, p) /\
  peer_send 1 o2 o3 state p = Panics "send on closed channel" /\
  (peer_send o1 o2 o3 state p = Returns (peer_getErr p, p) \/
   peer_send o1 o2 o3 state p = Panics "send on closed channel").
Proof.
  intros (H1 & H2 & H3 & H4 & H5 & H6) Hfn.
  assert (Hready : closed_or_send p = [CommClosed; CommSend]).
  { unfold closed_or_send, chan_recv_ready, chan_send_ready.
    rewrite H1, H2, Hfn, orb_true_r. reflexivity. }
  assert (Hfirst : forall o, pick o (closed_or_send p) = Some CommClosed ->
            peer_send o o2 o3 state p = Returns (peer_getErr p, p)).
  { intros o Ho. unfold peer_send, peer_send_among, send_select1. rewrite Ho. reflexivity. }
  assert (Hsecond : forall o, pick o (closed_or_send p) = Some CommSend ->
            peer_send o o2 o3 state p = Panics "send on closed channel").
  { intros o Ho. unfold peer_send, peer_send_among, send_select1. rewrite Ho.
    unfold sendCh_push, chan_send. rewrite H2, Hfn. reflexivity. }
  split_all.
  - apply Hfirst. rewrite Hready. reflexivity.
  - apply Hsecond. rewrite Hready. reflexivity.
  - destruct (pick_two o1 CommClosed CommSend) as [Ho | Ho]; rewrite <- Hready in Ho.
    + left. apply Hfirst, Ho.
    + right. apply Hsecond, Ho.
Qed.

(** C1: a call of [send] on an open Peer whose queue is full, with the
    writer transmitting any number of queued snapshots between the steps of
    the call ([n1], [n2]) and whatever the [select] choices are: the call
    returns nil; it discards at most one queued snapshot ([D]); every other
    snapshot that left the queue was transmitted ([T1], [T2]), in order; and
    the new snapshot is enqueued, last in the queue.  When the writer took
    nothing before the discard ([n1 = 0]) the discarded snapshot is the
    oldest queued one.  The Peer stays open and its sticky error is
    untouched. *)
Theorem send_on_full_queue_drops_at_most_one :
  forall (p : peer) (state : StateMessage) (o1 o2 o3 n1 n2 : nat),
    peer_inv p ->
    peer_open p ->
    length (ch_buf (p_sendCh p)) = defaultSendBufferSize ->
    exists (p' : peer) (T1 D T2 : list StateMessage),
      peer_send_among (writer_drain n1) (writer_drain n2) o1 o2 o3 state p
        = Returns (None, p') /\
      length D <= 1 /\
      p_dropped p' = p_dropped p ++ D /\
      conn_wire (p_conn p') = conn_wire (p_conn p) ++ T1 ++ T2 /\
      ch_buf (p_sendCh p) ++ [state] = T1 ++ D ++ T2 ++ ch_buf (p_sendCh p') /\
      last (ch_buf (p_sendCh p')) StateMessage_zero = state /\
      (n1 = 0 -> D = firstn 1 (ch_buf (p_sendCh p))) /\
      peer_inv p' /\ peer_open p' /\ p_err p' = p_err p.
Proof.
  intros [[ca cc ce ck w] [buf cap cl] [b2 c2 cl2] fn lat has err dr] state o1 o2 o3 n1 n2.
  unfold peer_inv, peer_open.
  cbn [p_closed p_sendCh p_closeFn p_conn p_err p_dropped conn_wire conn_closed
       ch_buf ch_closed ch_cap].
  intros (H1 & H2 & H3 & H4 & H5 & H6) Hopen Hfull. subst.
  set (left_over := skipn n1 buf).
  exists (mkPeer (mkConn ca cc ce ck
                    (w ++ firstn n1 buf ++ firstn n2 (tl left_over)))
                 (mkChan (skipn n2 (tl left_over) ++ [state]) defaultSendBufferSize false)
                 (mkChan [] c2 false) false lat has err
                 (dr ++ firstn 1 left_over)),
         (firstn n1 buf), (firstn 1 left_over), (firstn n2 (tl left_over)).
  cbn [p_closed p_sendCh p_closeFn p_conn p_err p_dropped conn_wire conn_closed
       ch_buf ch_closed ch_cap].
  split; [exact (send_overflow_state o1 o2 o3 n1 n2 state _ _ _ _ _ _ _ _ _ _ _ Hfull) |].
  assert (Hleft : length left_over <= defaultSendBufferSize)
    by (unfold left_over; rewrite length_skipn; lia).
  split_all; try reflexivity.
  - apply firstn_le_length.
  - (* nothing is lost but the discarded snapshot *)
    rewrite (app_assoc (firstn n2 (tl left_over))), firstn_skipn.
    rewrite (app_assoc (firstn 1 left_over)), firstn_1_tl.
    rewrite (app_assoc (firstn n1 buf)). unfold left_over.
    rewrite firstn_skipn. reflexivity.
  - apply last_last.
  - intros ->. reflexivity.
  - rewrite length_app, length_skipn. cbn [length].
    pose proof (length_tl_room _ _ send_buffer_positive Hleft). lia.
Qed.

Lemma send_on_full_queue_witness :
  peer_inv full_peer /\
  peer_open full_peer /\
  length (ch_buf (p_sendCh full_peer)) = defaultSendBufferSize /\
  exists (p' : peer) (T1 D T2 : list StateMessage),
    peer_send_among (writer_drain 2) (writer_drain 1) 0 1 2 (snapshot 9) full_peer
      = Returns (None, p') /\
    length D <= 1 /\
    p_dropped p' = p_dropped full_peer ++ D /\
    conn_wire (p_conn p') = conn_wire (p_conn full_peer) ++ T1 ++ T2 /\
    ch_buf (p_sendCh full_peer) ++ [snapshot 9] = T1 ++ D ++ T2 ++ ch_buf (p_sendCh p') /\
    last (ch_buf (p_sendCh p')) StateMessage_zero = snapshot 9 /\
    (2 = 0 -> D = firstn 1 (ch_buf (p_sendCh full_peer))) /\
    peer_inv p' /\ peer_open p' /\ p_err p' = p_err full_peer.
Proof.
  assert (Hinv : peer_inv full_peer)
    by (unfold peer_inv, full_peer, defaultSendBufferSize; cbn; split_all; try reflexivity; lia).
  split; [exact Hinv |].
  split; [reflexivity |].
  split; [reflexivity |].
  apply (send_on_full_queue_drops_at_most_one full_peer (snapshot 9) 0 1 2 2 1);
    [exact Hinv | reflexivity | reflexivity].
Defined.

(** ** The inbound reader *)

Lemma set_latest_inv (msg : StateMessage) (p : peer) :
  peer_inv p -> peer_inv (set_latest msg p).
Proof. intros H. exact H. Qed.

(** The reader stores every snapshot it decodes and goes on. *)
Lemma readLoop_decoded (msgs : list StateMessage) (rest : list decoded) (p : peer) :
  readLoop (map DecodeOk msgs ++ rest) p =
  readLoop rest (fold_left (fun q msg => set_latest msg q) msgs p).
Proof.
  revert p. induction msgs as [|msg msgs IH]; intros p; [reflexivity |].
  cbn. apply IH.
Qed.

Lemma stored_snapshots_keep (msgs : list StateMessage) (p : peer) :
  let p' := fold_left (fun q msg => set_latest msg q) msgs p in
  peer_inv p -> peer_inv p' /\ p_err p' = p_err p.
Proof.
  revert p. induction msgs as [|msg msgs IH]; intros p; cbn; intros Hinv.
  - split; [assumption | reflexivity].
  - apply (IH (set_latest msg p)). apply set_latest_inv, Hinv.
Qed.

Lemma p_err_setErr (e : option error) (p : peer) :
  p_err (peer_setErr e p) = first_fault [p_err p; e].
Proof.
  destruct e as [e|]; cbn; destruct (p_err p) eqn:He; cbn; rewrite ?He; reflexivity.
Qed.

(** A failed [Decode] ends the reader: the fault goes to [setErr] ([io.EOF]
    itself for a clean end of the stream) and the peer is closed. *)
Lemma readLoop_iter_fault (e : error) (p : peer) :
  peer_inv p ->
  exists p',
    readLoop_iter (DecodeErr e) p = Returns (Stopped, p') /\
    peer_inv p' /\
    p_closeFn p' = true /\
    p_err p' = first_fault [p_err p; Some (if errors_Is e EOF then EOF else e)].
Proof.
  intros Hinv. unfold readLoop_iter.
  set (p1 := if negb (errors_Is e EOF)
             then peer_setErr (Some e) p else peer_setErr (Some EOF) p).
  assert (Hinv1 : peer_inv p1)
    by (unfold p1; destruct (errors_Is e EOF); apply peer_setErr_inv, Hinv).
  assert (Herr1 : p_err p1 = first_fault [p_err p; Some (if errors_Is e EOF then EOF else e)]).
  { unfold p1. destruct (errors_Is e EOF); cbn [negb]; apply p_err_setErr. }
  destruct (peer_close_returns p1 Hinv1) as (result & p' & Hc & Hfn & Hinv' & Herr & _).
  exists p'. rewrite Hc. cbn. split_all; try assumption; try reflexivity.
  rewrite Herr. exact Herr1.
Qed.

Lemma errors_Is_recorded (e : error) :
  errors_Is (if errors_Is e EOF then EOF else e) EOF = errors_Is e EOF.
Proof. destruct (errors_Is e EOF) eqn:H; [reflexivity | exact H]. Qed.

(** C8: the inbound reader, after decoding any number of snapshots, meets a
    failed [Decode].  It stops; the failure is recorded through [setErr],
    as itself when it is not a clean end of the stream and as the sentinel
    [io.EOF] when it is, so on a Peer with no earlier fault it is the sticky
    error; the Peer is closed (both channels and the connection); and the
    recorded value tests as [io.EOF] exactly when the stream ended cleanly,
    which tells the "ended" condition from a transport fault. *)
Theorem reader_records_fault_and_closes :
  forall (p : peer) (msgs : list StateMessage) (e : error) (later : list decoded),
    peer_inv p ->
    exists p',
      readLoop (map DecodeOk msgs ++ DecodeErr e :: later) p = Returns (Stopped, p') /\
      peer_getErr p' =
        first_fault [p_err p; Some (if errors_Is e EOF then EOF else e)] /\
      errors_Is (if errors_Is e EOF then EOF else e) EOF = errors_Is e EOF /\
      p_closeFn p' = true /\
      ch_closed (p_closed p') = true /\
      ch_closed (p_sendCh p') = true /\
      conn_closed (p_conn p') = true.
Proof.
  intros p msgs e later Hinv.
  rewrite readLoop_decoded.
  destruct (stored_snapshots_keep msgs p Hinv) as (Hinv1 & Herr1).
  destruct (readLoop_iter_fault e _ Hinv1) as (p' & Hr & Hinv' & Hfn & Herr).
  destruct (closed_peer_is_shut p' Hinv' Hfn) as (Hc1 & Hc2 & Hc3).
  exists p'. cbn [readLoop]. rewrite Hr. cbn [bind].
  split_all; try assumption; try reflexivity.
  - unfold peer_getErr. rewrite Herr, Herr1. reflexivity.
  - apply errors_Is_recorded.
Qed.

Lemma reader_records_fault_witness :
  peer_inv (newPeer conn0) /\
  exists p',
    readLoop (map DecodeOk [snapshot 1; snapshot 2]
              ++ DecodeErr (ErrOther "connection reset by peer") :: []) (newPeer conn0)
      = Returns (Stopped, p') /\
    peer_getErr p' =
      first_fault [p_err (newPeer conn0);
                   Some (if errors_Is (ErrOther "connection reset by peer") EOF
                         then EOF else ErrOther "connection reset by peer")] /\
    errors_Is (if errors_Is (ErrOther "connection reset by peer") EOF
               then EOF else ErrOther "connection reset by peer") EOF
      = errors_Is (ErrOther "connection reset by peer") EOF /\
    p_closeFn p' = true /\
    ch_closed (p_closed p') = true /\
    ch_closed (p_sendCh p') = true /\
    conn_closed (p_conn p') = true.
Proof.
  split; [apply newPeer_inv |].
  apply (reader_records_fault_and_closes (newPeer conn0) [snapshot 1; snapshot 2]
           (ErrOther "connection reset by peer") []).
  apply newPeer_inv.
Defined.

(** The two faults on a fresh peer: a reset is recorded as itself, the end
    of the stream as [io.EOF]. *)
Example reader_fault_recorded :
  (p' <- readLoop [DecodeOk (snapshot 1); DecodeErr (ErrOther "reset")] (newPeer conn0) ;;
   Returns (peer_getErr (snd p'), peer_latestState (snd p')))
  = Returns (Some (ErrOther "reset"), (snapshot 1, true)).
Proof. reflexivity. Qed.

Example reader_end_recorded :
  readLoop [DecodeErr (OpError "read" EOF)] (newPeer conn0) = Returns (Stopped, ended_peer).
Proof. reflexivity. Qed.

(** ** The sticky error and the bound connection over a whole life *)

Lemma sendCh_push_keeps (state : StateMessage) (p p' : peer) :
  sendCh_push state p = Returns p' ->
  p_conn p' = p_conn p /\ p_err p' = p_err p.
Proof.
  unfold sendCh_push, chan_send. destruct (ch_closed (p_sendCh p)); cbn; intros H;
    [discriminate H | injection H as <-; split; reflexivity].
Qed.

Lemma sendCh_discard_keeps (p : peer) :
  p_conn (sendCh_discard p) = p_conn p /\ p_err (sendCh_discard p) = p_err p.
Proof.
  unfold sendCh_discard, chan_recv. destruct (ch_buf (p_sendCh p)); split; reflexivity.
Qed.

Lemma send_select3_keeps (o : nat) (state : StateMessage) (p p' : peer) (r : option error) :
  send_select3 o state p = Returns (r, p') ->
  p_conn p' = p_conn p /\ p_err p' = p_err p.
Proof.
  unfold send_select3.
  destruct (pick o (closed_or_send p)) as [[| |]|]; try (intros H; injection H as _ <-; split; reflexivity).
  destruct (sendCh_push state p) as [q|] eqn:Hq; cbn; intros H; [| discriminate H].
  injection H as _ <-. apply (sendCh_push_keeps state p q Hq).
Qed.

(** [send] leaves the connection and the sticky error as they are. *)
Lemma peer_send_keeps (o1 o2 o3 : nat) (state : StateMessage) (p p' : peer)
    (r : option error) :
  peer_send o1 o2 o3 state p = Returns (r, p') ->
  p_conn p' = p_conn p /\ p_err p' = p_err p.
Proof.
  unfold peer_send, peer_send_among, send_select1, send_select2.
  destruct (pick o1 (closed_or_send p)) as [[| |]|].
  - intros H; injection H as _ <-; split; reflexivity.
  - destruct (sendCh_push state p) as [q|] eqn:Hq; cbn; intros H; [| discriminate H].
    injection H as _ <-. apply (sendCh_push_keeps state p q Hq).
  - destruct (pick o2 (closed_or_recv p)) as [[| |]|];
      try (intros H; injection H as _ <-; split; reflexivity);
      try (apply send_select3_keeps).
    intros H. apply send_select3_keeps in H.
    destruct (sendCh_discard_keeps p) as (Hc & He).
    destruct H as (-> & ->). split; assumption.
  - destruct (pick o2 (closed_or_recv p)) as [[| |]|];
      try (intros H; injection H as _ <-; split; reflexivity);
      try (apply send_select3_keeps).
    intros H. apply send_select3_keeps in H.
    destruct (sendCh_discard_keeps p) as (Hc & He).
    destruct H as (-> & ->). split; assumption.
Qed.

(** [close] leaves the sticky error and the identity of the connection. *)
Lemma peer_close_keeps (p p' : peer) (r : option error) :
  peer_close p = Returns (r, p') ->
  conn_remote (p_conn p') = conn_remote (p_conn p) /\ p_err p' = p_err p.
Proof.
  unfold peer_close, chan_close, Conn_Close.
  destruct (p_closeFn p); [intros H; injection H as _ <-; split; reflexivity |].
  destruct (ch_closed (p_closed p)); cbn; [discriminate |].
  destruct (ch_closed (p_sendCh p)); cbn; [discriminate |].
  destruct (conn_closed (p_conn p)); intros H; injection H as _ <-; split; reflexivity.
Qed.

Lemma peer_setErr_keeps (err : option error) (p : peer) :
  p_conn (peer_setErr err p) = p_conn p /\
  forall e, p_err p = Some e -> p_err (peer_setErr err p) = Some e.
Proof.
  split; [apply peer_setErr_fields |].
  intros e He. rewrite p_err_setErr, He. reflexivity.
Qed.

(** No step of a peer changes the connection it owns or a sticky error
    that is set. *)
Lemma peer_step_keeps (p p' : peer) :
  peer_step p p' ->
  conn_remote (p_conn p') = conn_remote (p_conn p) /\
  forall e, p_err p = Some e -> p_err p' = Some e.
Proof.
  intros Hstep. destruct Hstep as [err p | o1 o2 o3 state p p' r H | p p' r H
                                  | d p p' st H | o enc p p' st H].
  - destruct (peer_setErr_keeps err p) as (-> & He). split; [reflexivity | exact He].
  - destruct (peer_send_keeps _ _ _ _ _ _ _ H) as (-> & ->). split; trivial.
  - destruct (peer_close_keeps _ _ _ H) as (-> & ->). split; trivial.
  - unfold readLoop_iter in H. destruct d as [msg | err].
    + injection H as _ <-. split; trivial.
    + set (p1 := if negb (errors_Is err EOF)
                 then peer_setErr (Some err) p else peer_setErr (Some EOF) p) in H.
      assert (H1 : p_conn p1 = p_conn p /\ forall e, p_err p = Some e -> p_err p1 = Some e)
        by (unfold p1; destruct (negb (errors_Is err EOF)); apply peer_setErr_keeps).
      destruct (peer_close p1) as [[r q]|] eqn:Hc; cbn in H; [| discriminate H].
      injection H as _ <-.
      destruct (peer_close_keeps _ _ _ Hc) as (-> & ->).
      destruct H1 as (-> & He). split; trivial.
  - unfold writeLoop_iter in H.
    destruct (pick o (closed_or_recv p)) as [[| |]|];
      try (injection H as _ <-; split; trivial).
    unfold chan_recv in H. destruct (ch_buf (p_sendCh p)) as [|v rest]; cbn [negb] in H.
    + injection H as _ <-. split; trivial.
    + destruct enc as [err|].
      * match type of H with context [peer_close ?q] => set (p1 := q) in H end.
        assert (H1 : p_conn p1 = p_conn p /\ forall e, p_err p = Some e -> p_err p1 = Some e).
        { unfold p1. destruct (peer_setErr_keeps (Some err)
                                 (set_sendCh (mkChan rest (ch_cap (p_sendCh p))
                                                     (ch_closed (p_sendCh p))) p))
            as (-> & He). split; [reflexivity | exact He]. }
        destruct (peer_close p1) as [[r q]|] eqn:Hc; cbn in H; [| discriminate H].
        injection H as _ <-.
        destruct (peer_close_keeps _ _ _ Hc) as (-> & ->).
        destruct H1 as (-> & He). split; trivial.
      * injection H as _ <-. split; trivial.
Qed.

Lemma peer_steps_keep (p p' : peer) :
  peer_steps p p' ->
  conn_remote (p_conn p') = conn_remote (p_conn p) /\
  forall e, p_err p = Some e -> p_err p' = Some e.
Proof.
  induction 1 as [p | p q r Hstep _ (IHc & IHe)]; [split; trivial |].
  destruct (peer_step_keeps p q Hstep) as (Hc & He).
  split; [congruence | intros e H; apply IHe, He, H].
Qed.

Lemma acceptOnce_after_keeps (r : accepted) (m m' : Manager) (d : option Conn) :
  acceptOnce_after r m = Returns (m', d) ->
  (forall e, m_err m = Some e -> m_err m' = Some e) /\
  (forall a, bound_to m = Some a -> bound_to m' = Some a).
Proof.
  unfold acceptOnce_after, bound_to.
  destruct r as [conn | err].
  - destruct (isClosed m).
    + destruct (Conn_Close conn). intros H; injection H as <- _. split; trivial.
    + destruct (m_peer m) as [p|] eqn:Hp.
      * destruct (peer_close (newPeer conn)) as [[? ?]|]; cbn; intros H;
          [| discriminate H].
        injection H as <- _. rewrite Hp. split; trivial.
      * intros H; injection H as <- _. split; [trivial | discriminate].
  - intros H; injection H as <- _.
    destruct (negb (errors_Is err ErrClosed)); [| split; trivial].
    unfold Manager_setErr. destruct (m_err m) eqn:He; split; trivial.
    + intros e0 H0. rewrite He. exact H0.
    + discriminate.
Qed.

(** No step of a Manager changes a sticky error that is set or the
    connection the Manager is bound to. *)
Lemma Manager_step_keeps (m m' : Manager) :
  Manager_step m m' ->
  (forall e, m_err m = Some e -> m_err m' = Some e) /\
  (forall a, bound_to m = Some a -> bound_to m' = Some a).
Proof.
  intros Hstep.
  destruct Hstep as [o1 o2 o3 state m m' r H | m m' c H Hc | net m e H
                    | r m m' d H | m p p' Hp H].
  - unfold Manager_Send, getPeer in H. unfold bound_to.
    destruct (m_peer m) as [p|] eqn:Hp.
    + destruct (peer_send o1 o2 o3 state p) as [[e q]|] eqn:Hs; cbn in H; [| discriminate H].
      injection H as _ <-. destruct (peer_send_keeps _ _ _ _ _ _ _ Hs) as (Hconn & _).
      cbn. rewrite Hconn. split; trivial.
    + injection H as _ <-. rewrite Hp. split; trivial.
  - unfold Manager_Close in H. unfold bound_to.
    destruct (m_closeOnce m).
    + injection H as <-. cbn in Hc. injection Hc as <-. split; trivial.
    + destruct (chan_close (m_closed m)) as [ch|]; cbn [bind] in H; [| discriminate H].
      unfold swapListener, getPeer, set_listener in H.
      cbn [m_peer m_listener m_closeOnce m_closed m_err] in H.
      destruct (m_peer m) as [p|] eqn:Hp.
      * destruct (peer_close p) as [[e q]|] eqn:Hq; cbn [bind] in H;
          [| destruct (m_listener m) as [l|]; [destruct (Listener_Close l) |]; discriminate H].
        destruct (peer_close_keeps _ _ _ Hq) as (Hconn & _).
        destruct (m_listener m) as [l|]; [destruct (Listener_Close l) |];
          injection H as <-; cbn in Hc; injection Hc as <-; cbn; rewrite Hconn;
          split; trivial.
      * destruct (m_listener m) as [l|]; [destruct (Listener_Close l) |];
          injection H as <-; cbn in Hc; injection Hc as <-; cbn; split; trivial.
  - unfold acceptOnce, getListener in H.
    destruct (m_listener m) as [l|]; [| injection H as <-; split; trivial].
    destruct (Listener_Accept net l) as [r l1].
    destruct (acceptOnce_after r m) as [[m1 d]|] eqn:Ha; cbn [bind] in H; [| discriminate H].
    destruct (Listener_Close l1) as [? l2]. injection H as <-.
    exact (acceptOnce_after_keeps r m m1 d Ha).
  - exact (acceptOnce_after_keeps r m m' d H).
  - destruct (peer_step_keeps p p' H) as (Hconn & _).
    unfold bound_to. rewrite Hp. cbn. rewrite Hconn. split; trivial.
Qed.

Lemma Manager_steps_keep (m m' : Manager) :
  Manager_steps m m' ->
  (forall e, m_err m = Some e -> m_err m' = Some e) /\
  (forall a, bound_to m = Some a -> bound_to m' = Some a).
Proof.
  induction 1 as [m | m n k Hstep _ (IHe & IHb)]; [split; trivial |].
  destruct (Manager_step_keeps m n Hstep) as (He & Hb).
  split; intros x Hx; [apply IHe, He, Hx | apply IHb, Hb, Hx].
Qed.

(** C6: the sticky error of a Peer and of a Manager is write-once.  A
    [setErr] with nil records nothing; once an error [e0] is recorded every
    later [setErr] leaves the component as it is, and so does everything
    else that happens to the component in its life; after any sequence of
    [setErr] calls [getErr] returns the first fault of the history, or
    none, and so does [Err], which falls back to the bound Peer's error
    when the Manager has none of its own. *)
Theorem sticky_error_write_once :
  forall (p : peer) (m : Manager) (e0 : error) (e : option error)
         (errs : list (option error)),
    (peer_setErr None p = p /\
     peer_setErr e (set_err (Some e0) p) = set_err (Some e0) p /\
     peer_getErr (peer_setErrs errs p) = first_fault (p_err p :: errs) /\
     (forall p', peer_steps (set_err (Some e0) p) p' -> peer_getErr p' = Some e0)) /\
    (Manager_setErr None m = m /\
     Manager_setErr e (set_merr (Some e0) m) = set_merr (Some e0) m /\
     Manager_getErr (Manager_setErrs errs m) = first_fault (m_err m :: errs) /\
     Manager_Err (Some (Manager_setErrs errs m)) =
       match first_fault (m_err m :: errs) with
       | Some f => Some f
       | None => match m_peer m with
                 | Some q => peer_getErr q
                 | None => None
                 end
       end /\
     (forall m', Manager_steps (set_merr (Some e0) m) m' ->
                 Manager_getErr m' = Some e0 /\ Manager_Err (Some m') = Some e0)).
Proof.
  intros p m e0 e errs. split; split_all.
  - reflexivity.
  - destruct e; reflexivity.
  - rewrite peer_setErrs_spec. reflexivity.
  - intros p' Hsteps. apply (peer_steps_keep _ _ Hsteps). reflexivity.
  - reflexivity.
  - destruct e; reflexivity.
  - rewrite Manager_setErrs_spec. reflexivity.
  - rewrite Manager_setErrs_spec. unfold Manager_Err, Manager_getErr, getPeer.
    cbn. destruct (first_fault (m_err m :: errs)); reflexivity.
  - intros m' Hsteps.
    assert (He : m_err m' = Some e0) by (apply (Manager_steps_keep _ _ Hsteps); reflexivity).
    unfold Manager_Err, Manager_getErr. rewrite He. split; reflexivity.
Qed.

(** ** The well-formed states are the reachable ones *)

Lemma Host_inv (listen : string -> listened) (address : string) (m : Manager) :
  fst (Host listen address) = Some m ->
  Manager_inv m /\ m_peer m = None /\ m_closeOnce m = false.
Proof.
  unfold Host.
  destruct (listen _) as [l | e]; cbn; intros H; [| discriminate H].
  injection H as <-. unfold Manager_inv. cbn. split_all; reflexivity.
Qed.

Lemma Join_inv (dial : string -> dialed) (address : string) (m : Manager) :
  fst (Join dial address) = Some m ->
  Manager_inv m /\ m_closeOnce m = false.
Proof.
  unfold Join.
  destruct (dial _) as [c | e]; cbn; intros H; [| discriminate H].
  injection H as <-. unfold Manager_inv. cbn.
  split_all; try reflexivity. apply newPeer_inv.
Qed.

Lemma Manager_setErr_inv (e : option error) (m : Manager) :
  Manager_inv m -> Manager_inv (Manager_setErr e m).
Proof.
  unfold Manager_setErr. destruct e; [destruct (m_err m) |]; trivial.
Qed.

Lemma acceptOnce_inv (net : accepted) (m : Manager) (e : accept_end) :
  Manager_inv m ->
  acceptOnce net m = Returns e ->
  Manager_inv (ae_mgr e).
Proof.
  intros Hinv. unfold acceptOnce, getListener.
  destruct (m_listener m) as [l|]; [| intros H; injection H as <-; exact Hinv].
  unfold Listener_Accept.
  set (r := if l_closed l then AcceptErr (OpError "accept" ErrClosed) else net).
  assert (Hafter : forall m' d, acceptOnce_after r m = Returns (m', d) -> Manager_inv m').
  { unfold acceptOnce_after. intros m' d.
    destruct r as [conn | err].
    - destruct (isClosed m).
      + destruct (Conn_Close conn). intros H; injection H as <- _; exact Hinv.
      + destruct (m_peer m) eqn:Hp.
        * destruct (peer_close (newPeer conn)) as [[? ?]|]; cbn; intros H;
            [injection H as <- _; exact Hinv | discriminate H].
        * intros H; injection H as <- _.
          destruct Hinv as (H1 & H2 & _). unfold Manager_inv. cbn.
          split_all; trivial. apply newPeer_inv.
    - intros H; injection H as <- _.
      destruct (negb (errors_Is err ErrClosed));
        [exact (Manager_setErr_inv (Some err) m Hinv) | exact Hinv]. }
  destruct (acceptOnce_after r m) as [[m' d] | msg]; cbn [bind]; [| discriminate].
  specialize (Hafter m' d eq_refl).
  destruct (Listener_Close _) as [? l2]. intros H; injection H as <-.
  exact Hafter.
Qed.

(** The writer keeps the peer well formed, whatever it meets. *)
Lemma writeLoop_iter_inv (o : nat) (enc : option error) (p : peer) :
  peer_inv p ->
  exists st p', writeLoop_iter o enc p = Returns (st, p') /\ peer_inv p'.
Proof.
  intros Hinv. unfold writeLoop_iter.
  destruct (pick o (closed_or_recv p)) as [[| |]|]; try (eexists _, p; split; [reflexivity | exact Hinv]).
  destruct p as [conn [buf cap cl] cd fn lat has err dr].
  unfold chan_recv. cbn [p_sendCh ch_buf ch_cap ch_closed].
  destruct buf as [|v rest]; cbn [negb].
  - eexists _, _. split; [reflexivity | exact Hinv].
  - assert (Hinv1 : peer_inv (set_sendCh (mkChan rest cap cl)
                       (mkPeer conn (mkChan (v :: rest) cap cl) cd fn lat has err dr))).
    { unfold peer_inv in *. cbn in *. destruct Hinv as (H1 & H2 & H3 & H4 & H5 & H6).
      split_all; trivial. lia. }
    destruct enc as [e|].
    + destruct (peer_close_returns _ (peer_setErr_inv (Some e) _ Hinv1))
        as (res & p' & Hclose & _ & Hinv' & _).
      rewrite Hclose. cbn [bind]. eexists _, p'. split; [reflexivity | exact Hinv'].
    + eexists _, _. split; [reflexivity | exact Hinv1].
Qed.

(** [Manager.Send] keeps the Manager well formed. *)
Lemma Manager_Send_inv (o1 o2 o3 : nat) (state : StateMessage) (m m' : Manager)
    (e : option error) :
  Manager_inv m ->
  Manager_Send o1 o2 o3 state (Some m) = Returns (e, Some m') ->
  Manager_inv m'.
Proof.
  intros (H1 & H2 & Hp). unfold Manager_Send, getPeer.
  destruct (m_peer m) as [p|] eqn:Hpeer.
  - destruct (p_closeFn p) eqn:Hfn.
    + destruct (send_closed_cases p state o1 o2 o3 Hp Hfn) as (_ & _ & [-> | ->]);
        cbn [bind]; intros H; [| discriminate H].
      injection H as _ <-. unfold Manager_inv. cbn. split_all; trivial.
    + destruct (send_open_returns_nil p state o1 o2 o3 Hp Hfn) as (p' & -> & Hinv' & _).
      cbn [bind]. intros H. injection H as _ <-.
      unfold Manager_inv. cbn. split_all; trivial.
  - intros H. injection H as _ <-. unfold Manager_inv. rewrite Hpeer. split_all; trivial.
Qed.

(** ** What [send] returns *)

(** C2, as stated, fails: after the reader met the end of the stream and
    closed the Peer, [send] takes its [<-p.closed] branch and returns the
    sticky error [io.EOF], and [Manager.Send] hands it to the caller. *)
Lemma send_on_ended_peer_returns_EOF :
  readLoop [DecodeErr EOF] (newPeer conn0) = Returns (Stopped, ended_peer) /\
  peer_send 0 0 0 (snapshot 1) ended_peer = Returns (Some EOF, ended_peer) /\
  Manager_Send 0 0 0 (snapshot 1) (Some (newManager (Some ended_peer)))
    = Returns (Some EOF, Some (newManager (Some ended_peer))).
Proof. repeat split. Qed.

(** C2, amended: [send] returns nil on every open Peer, and [Manager.Send]
    returns nil when no Peer is bound.  On a closed Peer the [<-p.closed]
    branch of [send] returns the Peer's sticky error, and that is the only
    value [send] returns there; after a fault of the reader this error is
    not nil.  [Manager.Send] passes the result of the bound Peer's [send]
    on.  So an in-session failure reaches the caller through the return
    value of [send] as well as through [error()]. *)
Theorem send_returns_sticky_error_once_closed :
  forall (p : peer) (m : Manager) (state : StateMessage) (o1 o2 o3 : nat) (e : error),
    peer_inv p ->
    (p_closeFn p = false ->
       exists p', peer_send o1 o2 o3 state p = Returns (None, p')) /\
    (p_closeFn p = true ->
       peer_send 0 o2 o3 state p = Returns (peer_getErr p, p) /\
       (peer_send o1 o2 o3 state p = Returns (peer_getErr p, p) \/
        peer_send o1 o2 o3 state p = Panics "send on closed channel")) /\
    (exists p' f,
       readLoop_iter (DecodeErr e) p = Returns (Stopped, p') /\
       peer_getErr p' = Some f /\
       peer_send 0 o2 o3 state p' = Returns (Some f, p')) /\
    Manager_Send o1 o2 o3 state (Some (set_peer (Some p) m)) =
      ('(r, p') <- peer_send o1 o2 o3 state p ;;
       Returns (r, Some (set_peer (Some p') m))) /\
    Manager_Send o1 o2 o3 state (Some (set_peer None m)) =
      Returns (None, Some (set_peer None m)).
Proof.
  intros p m state o1 o2 o3 e Hinv. split_all.
  - intros Hopen.
    destruct (send_open_returns_nil p state o1 o2 o3 Hinv Hopen) as (p' & Hs & _).
    exists p'. exact Hs.
  - intros Hclosed.
    destruct (send_closed_cases p state o1 o2 o3 Hinv Hclosed) as (H0 & _ & Hany).
    split; assumption.
  - destruct (readLoop_iter_fault e p Hinv) as (p' & Hr & Hinv' & Hfn & Herr).
    assert (Hf : exists f, p_err p' = Some f).
    { rewrite Herr. cbn. destruct (p_err p); eexists; reflexivity. }
    destruct Hf as (f & Hf).
    exists p', f. split_all; try assumption.
    destruct (send_closed_cases p' state 0 o2 o3 Hinv' Hfn) as (H0 & _).
    rewrite H0. unfold peer_getErr. rewrite Hf. reflexivity.
  - unfold Manager_Send, getPeer. cbn [m_peer set_peer].
    destruct (peer_send o1 o2 o3 state p) as [[r p'] | msg]; reflexivity.
  - reflexivity.
Qed.

Lemma send_returns_sticky_error_witness :
  peer_inv ended_peer /\
  peer_send 0 1 2 (snapshot 3) ended_peer = Returns (Some EOF, ended_peer).
Proof.
  assert (Hinv : peer_inv ended_peer)
    by (unfold peer_inv, ended_peer, defaultSendBufferSize; cbn; split_all; try reflexivity; lia).
  split; [exact Hinv |].
  destruct (send_returns_sticky_error_once_closed ended_peer hosting (snapshot 3) 0 1 2 EOF Hinv)
    as (_ & Hclosed & _).
  destruct (Hclosed eq_refl) as (H0 & _). exact H0.
Defined.

(** ** [send] after [close] *)

(** C9: [send], [latestState] and [getErr] are to return normally in every
    state of the Peer, also after [close].  The code breaks this for
    [send]: once [close] has closed [p.sendCh], the outer [select] of
    [send] has two communications that can proceed, and when the runtime
    picks [p.sendCh <- state] the call panics instead of returning;
    [Manager.Send] panics with it.  Here the Peer was closed by its reader
    at the end of the stream; [latestState] and [getErr] do return. *)
Theorem send_after_close_can_panic :
  readLoop [DecodeErr EOF] (newPeer conn0) = Returns (Stopped, ended_peer) /\
  closed_or_send ended_peer = [CommClosed; CommSend] /\
  peer_send 1 0 0 (snapshot 1) ended_peer = Panics "send on closed channel" /\
  Manager_Send 1 0 0 (snapshot 1) (Some (newManager (Some ended_peer)))
    = Panics "send on closed channel" /\
  peer_latestState ended_peer = (StateMessage_zero, false) /\
  peer_getErr ended_peer = Some EOF.
Proof. repeat split. Qed.

(** ** [Close] *)

(** On a Manager whose teardown has run, every call of [Close] is a no-op. *)
Lemma Close_calls_closed (n : nat) (m : Manager) :
  m_closeOnce m = true ->
  Close_calls n (Some m) = Returns (repeat (Close_noop (Some m)) n).
Proof.
  intros Hdone. induction n as [|n IH]; [reflexivity |].
  cbn [Close_calls Manager_Close]. rewrite Hdone. cbn [bind ce_mgr].
  rewrite IH. reflexivity.
Qed.

(** The nested tests of [Close] pick the first non-benign error. *)
Ltac first_non_benign_cases :=
  repeat (cbn [first_non_benign benign negb];
          match goal with
          | |- context [match ?e with Some _ => _ | None => _ end] =>
              is_var e; destruct e
          | |- context [errors_Is ?e ErrClosed] => destruct (errors_Is e ErrClosed)
          end);
  cbn [first_non_benign benign negb];
  reflexivity.

Ltac close_first_goal :=
  lazymatch goal with
  | |- exists m1, Returns (mkCloseEnd _ (Some ?x) _) = _ /\ _ => exists x
  end;
  split;
  [ f_equal; f_equal; first_non_benign_cases
  | cbn; rewrite ?orb_true_r; split_all; trivial ].

(** The first call of [Close] on a Manager whose teardown has not run. *)
Lemma Close_first (m : Manager) :
  Manager_inv m ->
  m_closeOnce m = false ->
  exists m1,
    Manager_Close (Some m) =
      Returns (mkCloseEnd (first_non_benign [listener_close_error m; peer_close_error m])
                          (Some m1)
                          (option_map (fun l => snd (Listener_Close l)) (m_listener m))) /\
    Manager_inv m1 /\
    m_closeOnce m1 = true /\
    isClosed m1 = true /\
    m_listener m1 = None /\
    m_err m1 = m_err m /\
    match m_peer m, m_peer m1 with
    | Some p, Some p1 =>
        p_closeFn p1 = true /\
        conn_closed (p_conn p1) = true /\
        conn_closeCalls (p_conn p1) =
          conn_closeCalls (p_conn p) + (if p_closeFn p then 0 else 1)
    | None, None => True
    | _, _ => False
    end.
Proof.
  intros (Hc & Hb & Hp) Hopen.
  unfold Manager_Close, chan_close. rewrite Hopen, Hc, Hopen. cbn [bind].
  unfold swapListener, getPeer, listener_close_error, peer_close_error, isClosed,
    chan_recv_ready, set_listener, Manager_inv.
  cbn [m_peer m_listener m_closeOnce m_closed m_err ch_closed ch_buf].
  destruct (m_peer m) as [p|] eqn:Hpeer.
  - destruct (peer_close_returns p Hp)
      as (res & p1 & Hclose & Hfn1 & Hinv1 & _ & _ & _ & Hres & Hconn).
    destruct (closed_peer_is_shut p1 Hinv1 Hfn1) as (_ & _ & Hshut).
    rewrite Hclose.
    assert (Hcalls : conn_closeCalls (p_conn p1) =
                     conn_closeCalls (p_conn p) + (if p_closeFn p then 0 else 1)).
    { rewrite Hconn. destruct (p_closeFn p); [lia |].
      destruct (Conn_Close_closed (p_conn p)) as (_ & -> & _). lia. }
    destruct (m_listener m) as [l|]; cbn [option_map];
      [destruct (Listener_Close l) as [el l'] |]; cbn [fst snd bind];
      close_first_goal.
  - destruct (m_listener m) as [l|]; cbn [option_map];
      [destruct (Listener_Close l) as [el l'] |]; cbn [fst snd bind];
      close_first_goal.
Qed.

(** C5: [Close] is idempotent.  On a Manager whose teardown has not run,
    the first of any number of calls runs it: it closes the held listener
    and the bound Peer, each once, and reports the first non-benign error
    of the two ("already closed" errors are suppressed); every later call
    returns nil, closes nothing and leaves the Manager as the first call
    left it. *)
Theorem Close_is_idempotent :
  forall (m : Manager) (n : nat),
    Manager_inv m ->
    m_closeOnce m = false ->
    exists (first : close_end) (m1 : Manager),
      Manager_Close (Some m) = Returns first /\
      ce_mgr first = Some m1 /\
      ce_err first = first_non_benign [listener_close_error m; peer_close_error m] /\
      ce_listener first = option_map (fun l => snd (Listener_Close l)) (m_listener m) /\
      m_closeOnce m1 = true /\
      m_listener m1 = None /\
      match m_peer m, m_peer m1 with
      | Some p, Some p1 =>
          p_closeFn p1 = true /\
          conn_closed (p_conn p1) = true /\
          conn_closeCalls (p_conn p1) =
            conn_closeCalls (p_conn p) + (if p_closeFn p then 0 else 1)
      | None, None => True
      | _, _ => False
      end /\
      Manager_Close (Some m1) = Returns (Close_noop (Some m1)) /\
      Close_calls (S n) (Some m) = Returns (first :: repeat (Close_noop (Some m1)) n).
Proof.
  intros m n Hinv Hopen.
  destruct (Close_first m Hinv Hopen)
    as (m1 & Hfirst & Hinv1 & Hdone & _ & Hl & _ & Hpeer).
  eexists _, m1. split; [exact Hfirst |].
  cbn [ce_mgr ce_err ce_listener]. split_all; try reflexivity; try assumption.
  - unfold Manager_Close. rewrite Hdone. reflexivity.
  - cbn [Close_calls]. rewrite Hfirst. cbn [bind ce_mgr].
    rewrite (Close_calls_closed n m1 Hdone). reflexivity.
Qed.

Lemma Close_is_idempotent_witness :
  Manager_inv hosting_bound /\
  m_closeOnce hosting_bound = false /\
  exists (first : close_end) (m1 : Manager),
    Manager_Close (Some hosting_bound) = Returns first /\
    ce_mgr first = Some m1 /\
    ce_err first =
      first_non_benign [listener_close_error hosting_bound; peer_close_error hosting_bound] /\
    ce_listener first =
      option_map (fun l => snd (Listener_Close l)) (m_listener hosting_bound) /\
    m_closeOnce m1 = true /\
    m_listener m1 = None /\
    match m_peer hosting_bound, m_peer m1 with
    | Some p, Some p1 =>
        p_closeFn p1 = true /\
        conn_closed (p_conn p1) = true /\
        conn_closeCalls (p_conn p1) =
          conn_closeCalls (p_conn p) + (if p_closeFn p then 0 else 1)
    | None, None => True
    | _, _ => False
    end /\
    Manager_Close (Some m1) = Returns (Close_noop (Some m1)) /\
    Close_calls (S 2) (Some hosting_bound) = Returns (first :: repeat (Close_noop (Some m1)) 2).
Proof.
  assert (Hinv : Manager_inv hosting_bound).
  { unfold Manager_inv, hosting_bound. cbn. split_all; try reflexivity. apply newPeer_inv. }
  split; [exact Hinv |].
  split; [reflexivity |].
  apply (Close_is_idempotent hosting_bound 2 Hinv). reflexivity.
Defined.

(** The accept task bound a Peer and closed the listener, which the
    Manager still refers to; [Close] then meets "already closed" on the
    listener, suppresses it, and reports the failure of closing the
    connection; the calls after it report nothing. *)
Example Close_after_accept :
  acceptOnce (AcceptConn conn1) hosting = Returns (mkAcceptEnd hosting_bound 1 None) /\
  listener_close_error hosting_bound = Some (OpError "close" ErrClosed) /\
  (rs <- Close_calls 3 (Some hosting_bound) ;; Returns (map ce_err rs))
    = Returns [Some (ErrOther "i/o timeout"); None; None].
Proof. repeat split. Qed.

(** ** The accept task *)

(** C7, as stated, fails: when [Close] ran before the accept task started,
    the task finds no listener and returns without any accept attempt. *)
Lemma accept_task_after_Close_makes_no_accept :
  Manager_Close (Some hosting)
    = Returns (mkCloseEnd None (Some hosting_closed) (Some (mkListener true None 1 0))) /\
  acceptOnce (AcceptConn conn0) hosting_closed
    = Returns (mkAcceptEnd hosting_closed 0 None).
Proof. split; reflexivity. Qed.

(** The accept task never panics. *)
Lemma acceptOnce_after_returns (r : accepted) (m : Manager) :
  exists m' discarded,
    acceptOnce_after r m = Returns (m', discarded) /\
    m_listener m' = m_listener m /\
    match m_peer m with
    | Some p => m_peer m' = Some p
    | None => True
    end.
Proof.
  unfold acceptOnce_after.
  destruct r as [conn | err].
  - destruct (isClosed m).
    + destruct (Conn_Close conn) as [e conn']. exists m, (Some conn').
      split_all; try reflexivity. destruct (m_peer m); trivial.
    + destruct (m_peer m) as [p|] eqn:Hp.
      * destruct (peer_close_returns (newPeer conn) (newPeer_inv conn))
          as (res & np & Hclose & _).
        rewrite Hclose. cbn [bind]. exists m, (Some (p_conn np)).
        split_all; try reflexivity. exact Hp.
      * eexists _, None. split_all; reflexivity.
  - eexists _, None. split; [reflexivity |].
    destruct (negb (errors_Is err ErrClosed)); [| destruct (m_peer m); split; reflexivity].
    unfold Manager_setErr. destruct (m_err m); cbn; destruct (m_peer m); split; reflexivity.
Qed.

(** C7, amended: a Manager binds at most one Peer.  The accept task
    returns after at most one accept attempt: exactly one when it finds a
    listener, none when the listener was released before it ran; it leaves
    the listener it used closed and never replaces a bound Peer.  An
    accepted connection that arrives when a Peer is already bound or the
    Manager is closed is closed at once and the Manager (its bound Peer and
    its sticky error with it) stays as it was; one that arrives at an open
    Manager without a Peer becomes its Peer.  And a Manager bound to a
    connection stays bound to that connection whatever happens to it
    afterwards. *)
Theorem accept_task_binds_at_most_one_peer :
  forall (m : Manager) (net : accepted) (conn : Conn),
    (exists e,
       acceptOnce net m = Returns e /\
       ae_accepts e = (match m_listener m with Some _ => 1 | None => 0 end) /\
       match m_listener (ae_mgr e) with
       | Some l => l_closed l = true
       | None => m_listener m = None
       end /\
       match m_peer m with
       | Some p => m_peer (ae_mgr e) = Some p
       | None => True
       end) /\
    (m_peer m <> None \/ isClosed m = true ->
       exists conn',
         acceptOnce_after (AcceptConn conn) m = Returns (m, Some conn') /\
         conn_closed conn' = true /\
         conn_closeCalls conn' = S (conn_closeCalls conn)) /\
    (m_peer m = None -> isClosed m = false ->
       acceptOnce_after (AcceptConn conn) m
         = Returns (set_peer (Some (newPeer conn)) m, None)) /\
    (forall (m' : Manager) (a : string),
       bound_to m = Some a -> Manager_steps m m' -> bound_to m' = Some a).
Proof.
  intros m net conn. split_all.
  4: { intros m' a Hb Hsteps. exact (proj2 (Manager_steps_keep m m' Hsteps) a Hb). }
  - unfold acceptOnce, getListener.
    destruct (m_listener m) as [l|] eqn:Hl.
    + unfold Listener_Accept.
      destruct (acceptOnce_after_returns
                  (if l_closed l then AcceptErr (OpError "accept" ErrClosed) else net) m)
        as (m' & d & Hafter & _ & Hpeer).
      rewrite Hafter. cbn [bind].
      unfold Listener_Close. cbn [l_closed l_closeErr l_closeCalls l_acceptCalls].
      destruct (l_closed l); (eexists; split; [reflexivity |]); cbn -[Nat.sub];
        (split_all; [lia | reflexivity | exact Hpeer]).
    + eexists. split; [reflexivity |]. cbn. rewrite Hl.
      split_all; try reflexivity. destruct (m_peer m); trivial.
  - intros Hbusy. unfold acceptOnce_after.
    destruct (Conn_Close_closed conn) as (Hcl & Hcalls & _).
    destruct (isClosed m) eqn:Hclosed.
    + destruct (Conn_Close conn) as [e conn']. exists conn'.
      split_all; [reflexivity | exact Hcl | exact Hcalls].
    + destruct Hbusy as [Hbound | Habs]; [| discriminate Habs].
      destruct (m_peer m) as [p|]; [| congruence].
      destruct (peer_close_returns (newPeer conn) (newPeer_inv conn))
        as (res & np & Hclose & _ & _ & _ & _ & _ & _ & Hconn).
      rewrite Hclose. cbn [bind]. exists (p_conn np).
      rewrite Hconn. cbn [newPeer p_closeFn p_conn].
      split_all; [reflexivity | exact Hcl | exact Hcalls].
  - intros Hnone Hopen. unfold acceptOnce_after. rewrite Hopen, Hnone. reflexivity.
Qed.

Lemma accept_task_witness :
  (m_peer hosting_bound <> None \/ isClosed hosting_bound = true) /\
  exists conn',
    acceptOnce_after (AcceptConn conn0) hosting_bound = Returns (hosting_bound, Some conn') /\
    conn_closed conn' = true /\
    conn_closeCalls conn' = S (conn_closeCalls conn0).
Proof.
  assert (H : m_peer hosting_bound <> None \/ isClosed hosting_bound = true)
    by (left; discriminate).
  split; [exact H |].
  destruct (accept_task_binds_at_most_one_peer hosting_bound (AcceptConn conn0) conn0)
    as (_ & Hbusy & _).
  exact (Hbusy H).
Defined.

(** ** More on the peer: what every step keeps *)

(** [send] changes the queue and the log of dropped snapshots, nothing
    else. *)
Lemma sendCh_push_frame (state : StateMessage) (p p' : peer) :
  sendCh_push state p = Returns p' ->
  p' = set_sendCh (p_sendCh p') p.
Proof.
  unfold sendCh_push, chan_send. destruct (ch_closed (p_sendCh p)); cbn; intros H;
    [discriminate H | injection H as <-; reflexivity].
Qed.

Lemma same_but_queue_refl (p : peer) : same_but_queue p p.
Proof. unfold same_but_queue. split_all; reflexivity. Qed.

Lemma same_but_queue_trans (p q r : peer) :
  same_but_queue p q -> same_but_queue q r -> same_but_queue p r.
Proof.
  unfold same_but_queue.
  intros (A1 & A2 & A3 & A4 & A5 & A6) (B1 & B2 & B3 & B4 & B5 & B6).
  split_all; congruence.
Qed.

Lemma sendCh_push_same (state : StateMessage) (p p' : peer) :
  sendCh_push state p = Returns p' -> same_but_queue p p'.
Proof.
  intros H. rewrite (sendCh_push_frame state p p' H).
  unfold same_but_queue. split_all; reflexivity.
Qed.

Lemma sendCh_discard_same (p : peer) : same_but_queue p (sendCh_discard p).
Proof.
  unfold sendCh_discard, chan_recv, same_but_queue.
  destruct (ch_buf (p_sendCh p)); split_all; reflexivity.
Qed.

Lemma send_select3_same (o : nat) (state : StateMessage) (p p' : peer) (r : option error) :
  send_select3 o state p = Returns (r, p') -> same_but_queue p p'.
Proof.
  unfold send_select3.
  destruct (pick o (closed_or_send p)) as [[| |]|];
    try (intros H; injection H as _ <-; apply same_but_queue_refl).
  destruct (sendCh_push state p) as [q|] eqn:Hq; cbn; intros H; [| discriminate H].
  injection H as _ <-. exact (sendCh_push_same state p q Hq).
Qed.

Lemma peer_send_same (o1 o2 o3 : nat) (state : StateMessage) (p p' : peer)
    (r : option error) :
  peer_send o1 o2 o3 state p = Returns (r, p') -> same_but_queue p p'.
Proof.
  unfold peer_send, peer_send_among, send_select1, send_select2.
  destruct (pick o1 (closed_or_send p)) as [[| |]|].
  - intros H; injection H as _ <-; apply same_but_queue_refl.
  - destruct (sendCh_push state p) as [q|] eqn:Hq; cbn; intros H; [| discriminate H].
    injection H as _ <-. exact (sendCh_push_same state p q Hq).
  - destruct (pick o2 (closed_or_recv p)) as [[| |]|];
      try (intros H; injection H as _ <-; apply same_but_queue_refl);
      try (apply send_select3_same).
    intros H. apply send_select3_same in H.
    exact (same_but_queue_trans _ _ _ (sendCh_discard_same p) H).
  - destruct (pick o2 (closed_or_recv p)) as [[| |]|];
      try (intros H; injection H as _ <-; apply same_but_queue_refl);
      try (apply send_select3_same).
    intros H. apply send_select3_same in H.
    exact (same_but_queue_trans _ _ _ (sendCh_discard_same p) H).
Qed.

(** Every step keeps a well-formed peer well formed. *)
Lemma peer_step_inv (p p' : peer) :
  peer_step p p' -> peer_inv p -> peer_inv p'.
Proof.
  intros Hstep Hinv.
  destruct Hstep as [err p | o1 o2 o3 state p p' r H | p p' r H
                    | d p p' st H | o enc p p' st H].
  - apply peer_setErr_inv, Hinv.
  - destruct (p_closeFn p) eqn:Hfn.
    + destruct (send_closed_cases p state o1 o2 o3 Hinv Hfn) as (_ & _ & [E | E]);
        rewrite E in H; [injection H as _ <-; exact Hinv | discriminate H].
    + destruct (send_open_returns_nil p state o1 o2 o3 Hinv Hfn) as (q & E & Hq & _).
      rewrite E in H. injection H as _ <-. exact Hq.
  - destruct (peer_close_returns p Hinv) as (res & q & E & _ & Hq & _).
    rewrite E in H. injection H as _ <-. exact Hq.
  - destruct d as [msg | err].
    + cbn in H. injection H as _ <-. apply set_latest_inv, Hinv.
    + destruct (readLoop_iter_fault err p Hinv) as (q & E & Hq & _).
      rewrite E in H. injection H as _ <-. exact Hq.
  - destruct (writeLoop_iter_inv o enc p Hinv) as (st' & q & E & Hq).
    rewrite E in H. injection H as _ <-. exact Hq.
Qed.

Lemma peer_steps_inv (p p' : peer) :
  peer_steps p p' -> peer_inv p -> peer_inv p'.
Proof.
  induction 1 as [p | p q r Hstep _ IH]; intros Hinv; [exact Hinv |].
  apply IH, (peer_step_inv p q Hstep Hinv).
Qed.

(** No step reopens a closed peer. *)
Lemma peer_step_closed (p p' : peer) :
  peer_step p p' -> peer_inv p -> p_closeFn p = true -> p_closeFn p' = true.
Proof.
  intros Hstep Hinv Hfn.
  destruct Hstep as [err p | o1 o2 o3 state p p' r H | p p' r H
                    | d p p' st H | o enc p p' st H].
  - destruct (peer_setErr_fields err p) as (_ & _ & _ & -> & _). exact Hfn.
  - destruct (peer_send_same _ _ _ _ _ _ _ H) as (_ & _ & -> & _). exact Hfn.
  - destruct (peer_close_returns p Hinv) as (res & q & E & Hq & _).
    rewrite E in H. injection H as _ <-. exact Hq.
  - destruct d as [msg | err].
    + cbn in H. injection H as _ <-. exact Hfn.
    + destruct (readLoop_iter_fault err p Hinv) as (q & E & _ & Hq & _).
      rewrite E in H. injection H as _ <-. exact Hq.
  - unfold writeLoop_iter in H.
    destruct (pick o (closed_or_recv p)) as [[| |]|];
      try (injection H as _ <-; exact Hfn).
    unfold chan_recv in H. destruct (ch_buf (p_sendCh p)) as [|v rest]; cbn [negb] in H.
    + injection H as _ <-. exact Hfn.
    + destruct enc as [err|]; [| injection H as _ <-; exact Hfn].
      match type of H with context [peer_close ?q] =>
        assert (Hq : p_closeFn q = true)
          by (destruct (peer_setErr_fields (Some err)
                          (set_sendCh (mkChan rest (ch_cap (p_sendCh p))
                                              (ch_closed (p_sendCh p))) p))
                as (_ & _ & _ & -> & _); exact Hfn);
        unfold peer_close in H; rewrite Hq in H
      end.
      cbn [bind] in H. injection H as _ <-. exact Hq.
Qed.

Lemma peer_steps_closed (p p' : peer) :
  peer_steps p p' -> peer_inv p -> p_closeFn p = true -> p_closeFn p' = true.
Proof.
  induction 1 as [p | p q r Hstep _ IH]; intros Hinv Hfn; [exact Hfn |].
  apply IH; [exact (peer_step_inv p q Hstep Hinv) | exact (peer_step_closed p q Hstep Hinv Hfn)].
Qed.

(** X1: whatever happens to a peer made by [newPeer], its outbound queue
    never holds more than [defaultSendBufferSize] snapshots, and both of
    its channels are closed exactly when [close] has run. *)
Theorem peer_queue_stays_bounded :
  forall (conn : Conn) (p' : peer),
    peer_steps (newPeer conn) p' ->
    length (ch_buf (p_sendCh p')) <= defaultSendBufferSize /\
    ch_cap (p_sendCh p') = defaultSendBufferSize /\
    ch_closed (p_sendCh p') = p_closeFn p' /\
    ch_closed (p_closed p') = p_closeFn p'.
Proof.
  intros conn p' Hsteps.
  destruct (peer_steps_inv _ _ Hsteps (newPeer_inv conn)) as (H1 & H2 & _ & H4 & H5 & _).
  split_all; assumption.
Qed.

Lemma peer_queue_stays_bounded_witness :
  peer_steps (newPeer conn0)
             (set_sendCh (mkChan [snapshot 1] defaultSendBufferSize false) (newPeer conn0)) /\
  length (ch_buf (p_sendCh
            (set_sendCh (mkChan [snapshot 1] defaultSendBufferSize false) (newPeer conn0))))
    <= defaultSendBufferSize.
Proof.
  assert (Hs : peer_steps (newPeer conn0)
                 (set_sendCh (mkChan [snapshot 1] defaultSendBufferSize false)
                             (newPeer conn0))).
  { eapply peer_steps_next; [| apply peer_steps_refl].
    apply (PS_send 0 0 0 (snapshot 1) (newPeer conn0) _ None). reflexivity. }
  split; [exact Hs |].
  exact (proj1 (peer_queue_stays_bounded conn0 _ Hs)).
Defined.

(** X2: a closed peer never reopens: once [close] has run, after any
    further steps the peer is still closed, with both channels and the
    connection closed. *)
Theorem closed_peer_never_reopens :
  forall (p p' : peer),
    peer_inv p ->
    p_closeFn p = true ->
    peer_steps p p' ->
    p_closeFn p' = true /\
    ch_closed (p_closed p') = true /\
    ch_closed (p_sendCh p') = true /\
    conn_closed (p_conn p') = true.
Proof.
  intros p p' Hinv Hfn Hsteps.
  assert (Hfn' : p_closeFn p' = true) by exact (peer_steps_closed p p' Hsteps Hinv Hfn).
  destruct (closed_peer_is_shut p' (peer_steps_inv p p' Hsteps Hinv) Hfn') as (A & B & C).
  split_all; assumption.
Qed.

Lemma closed_peer_never_reopens_witness :
  peer_inv ended_peer /\
  p_closeFn ended_peer = true /\
  peer_steps ended_peer ended_peer /\
  p_closeFn ended_peer = true /\
  ch_closed (p_closed ended_peer) = true /\
  ch_closed (p_sendCh ended_peer) = true /\
  conn_closed (p_conn ended_peer) = true.
Proof.
  assert (Hinv : peer_inv ended_peer)
    by (unfold peer_inv, ended_peer, defaultSendBufferSize; cbn; split_all; try reflexivity; lia).
  assert (Hs : peer_steps ended_peer ended_peer).
  { eapply peer_steps_next; [| apply peer_steps_refl].
    apply (PS_send 0 0 0 (snapshot 1) ended_peer _ (Some EOF)). reflexivity. }
  split; [exact Hinv |]. split; [reflexivity |]. split; [exact Hs |].
  exact (closed_peer_never_reopens ended_peer ended_peer Hinv eq_refl Hs).
Defined.

(** ** Sequences of sends: the freshest snapshots stay *)

Lemma keep_last_all {A : Type} (k : nat) (l : list A) :
  length l <= k -> keep_last k l = l /\ overflow k l = [].
Proof.
  intros H. unfold keep_last, overflow.
  replace (length l - k) with 0 by lia. split; reflexivity.
Qed.

Lemma keep_last_length {A : Type} (k : nat) (l : list A) :
  length (keep_last k l) = Nat.min k (length l).
Proof. unfold keep_last. rewrite length_skipn. lia. Qed.

Lemma overflow_keep_last {A : Type} (k : nat) (l : list A) :
  overflow k l ++ keep_last k l = l.
Proof. apply firstn_skipn. Qed.

(** Dropping down to the last [k] after every addition is dropping down
    to the last [k] at the end. *)
Lemma keep_last_app {A : Type} (k : nat) (a b : list A) :
  keep_last k (keep_last k a ++ b) = keep_last k (a ++ b).
Proof.
  unfold keep_last.
  rewrite !skipn_app, !length_app, !length_skipn, skipn_skipn.
  f_equal; f_equal; lia.
Qed.

Lemma overflow_app {A : Type} (k : nat) (a b : list A) :
  overflow k a ++ overflow k (keep_last k a ++ b) = overflow k (a ++ b).
Proof.
  apply (app_inv_tail (keep_last k (a ++ b))).
  rewrite overflow_keep_last, <- app_assoc.
  rewrite <- (keep_last_app k a b), overflow_keep_last.
  rewrite app_assoc, overflow_keep_last. reflexivity.
Qed.

(** The state a call of [send] leaves on an open peer, the queue full or
    not. *)
Lemma send_open_state (o1 o2 o3 : nat) (state : StateMessage) :
  forall ca cc ce ck w buf c2 lat has err dr,
    length buf <= defaultSendBufferSize ->
    peer_send o1 o2 o3 state
      (mkPeer (mkConn ca cc ce ck w) (mkChan buf defaultSendBufferSize false)
              (mkChan [] c2 false) false lat has err dr) =
    Returns (None,
      mkPeer (mkConn ca cc ce ck w)
             (mkChan (keep_last defaultSendBufferSize (buf ++ [state]))
                     defaultSendBufferSize false)
             (mkChan [] c2 false) false lat has err
             (dr ++ overflow defaultSendBufferSize (buf ++ [state]))).
Proof.
  intros ca cc ce ck w buf c2 lat has err dr Hlen.
  destruct (Nat.ltb (length buf) defaultSendBufferSize) eqn:Hroom.
  - unfold peer_send, peer_send_among, send_select1, closed_or_send,
      chan_recv_ready, chan_send_ready.
    cbn [p_closed p_sendCh ch_buf ch_closed ch_cap length Nat.eqb negb orb offer app].
    rewrite Hroom. cbn [offer]. rewrite pick_one.
    unfold sendCh_push, chan_send, set_sendCh. cbn.
    apply Nat.ltb_lt in Hroom.
    destruct (keep_last_all defaultSendBufferSize (buf ++ [state])) as (-> & ->).
    { rewrite length_app. cbn. lia. }
    rewrite app_nil_r. reflexivity.
  - assert (Hfull : length buf = defaultSendBufferSize)
      by (apply Nat.ltb_ge in Hroom; lia).
    change (peer_send o1 o2 o3 state) with
      (peer_send_among (writer_drain 0) (writer_drain 0) o1 o2 o3 state).
    rewrite (send_overflow_state o1 o2 o3 0 0 state _ _ _ _ _ _ _ _ _ _ _ Hfull).
    cbn [firstn skipn app]. rewrite app_nil_r.
    unfold keep_last, overflow. rewrite length_app, Hfull. cbn [length].
    replace (defaultSendBufferSize + 1 - defaultSendBufferSize) with 1 by lia.
    destruct buf as [|b buf]; [discriminate Hfull |]. reflexivity.
Qed.

Lemma send_all_state (calls : list (nat * nat * nat * StateMessage)) :
  forall ca cc ce ck w buf c2 lat has err dr,
    length buf <= defaultSendBufferSize ->
    peer_send_all calls
      (mkPeer (mkConn ca cc ce ck w) (mkChan buf defaultSendBufferSize false)
              (mkChan [] c2 false) false lat has err dr) =
    Returns (repeat None (length calls),
      mkPeer (mkConn ca cc ce ck w)
             (mkChan (keep_last defaultSendBufferSize (buf ++ map snd calls))
                     defaultSendBufferSize false)
             (mkChan [] c2 false) false lat has err
             (dr ++ overflow defaultSendBufferSize (buf ++ map snd calls))).
Proof.
  induction calls as [|[[[o1 o2] o3] state] calls IH]; intros.
  - cbn [peer_send_all map length repeat]. rewrite app_nil_r.
    destruct (keep_last_all defaultSendBufferSize buf) as (-> & ->); [assumption |].
    rewrite app_nil_r. reflexivity.
  - cbn [peer_send_all map length repeat snd].
    rewrite send_open_state by assumption. cbn [bind].
    rewrite IH by (rewrite keep_last_length; lia). cbn [bind].
    rewrite keep_last_app, <- (app_assoc dr), overflow_app, <- app_assoc.
    reflexivity.
Qed.

(** X3: any number of [send] calls on an open Peer, with no writer
    progress in between: every call returns nil; afterwards the queue holds
    the most recent [defaultSendBufferSize] of the snapshots that were
    queued or sent, in the order they were sent, and exactly the older ones
    were discarded, oldest first; nothing but the queue changed. *)
Theorem sends_keep_the_freshest :
  forall (calls : list (nat * nat * nat * StateMessage)) (p : peer),
    peer_inv p ->
    peer_open p ->
    exists p',
      peer_send_all calls p = Returns (repeat None (length calls), p') /\
      ch_buf (p_sendCh p') =
        keep_last defaultSendBufferSize (ch_buf (p_sendCh p) ++ map snd calls) /\
      p_dropped p' =
        p_dropped p ++ overflow defaultSendBufferSize (ch_buf (p_sendCh p) ++ map snd calls) /\
      p_conn p' = p_conn p /\ p_err p' = p_err p /\
      p_latest p' = p_latest p /\ p_hasData p' = p_hasData p /\
      peer_open p'.
Proof.
  intros calls [[ca cc ce ck w] [buf cap cl] [b2 c2 cl2] fn lat has err dr].
  unfold peer_inv, peer_open.
  cbn [p_closed p_sendCh p_closeFn p_conn ch_buf ch_closed ch_cap].
  intros (H1 & H2 & H3 & H4 & H5 & H6) Hopen. subst.
  eexists. split; [exact (send_all_state calls _ _ _ _ _ _ _ _ _ _ _ H5) |].
  cbn. split_all; reflexivity.
Qed.

Lemma sends_keep_the_freshest_witness :
  peer_inv full_peer /\
  peer_open full_peer /\
  exists p',
    peer_send_all [(0, 1, 2, snapshot 9); (3, 4, 5, snapshot 10)] full_peer
      = Returns (repeat None 2, p') /\
    ch_buf (p_sendCh p') = map snapshot [3; 4; 5; 6; 7; 8; 9; 10]%Z /\
    p_dropped p' = map snapshot [1; 2]%Z.
Proof.
  assert (Hinv : peer_inv full_peer)
    by (unfold peer_inv, full_peer, defaultSendBufferSize; cbn; split_all; try reflexivity; lia).
  split; [exact Hinv |]. split; [reflexivity |].
  destruct (sends_keep_the_freshest
              [(0, 1, 2, snapshot 9); (3, 4, 5, snapshot 10)] full_peer Hinv eq_refl)
    as (p' & Hs & Hq & Hd & _).
  exists p'. split; [exact Hs |]. split; [rewrite Hq | rewrite Hd]; reflexivity.
Defined.

(** ** The writer *)

(** The writer on a well-formed open peer, in the terms of the peer. *)
Lemma writer_drain_spec (n : nat) (p : peer) :
  peer_inv p ->
  peer_open p ->
  conn_wire (p_conn (writer_drain n p)) =
    conn_wire (p_conn p) ++ firstn n (ch_buf (p_sendCh p)) /\
  ch_buf (p_sendCh (writer_drain n p)) = skipn n (ch_buf (p_sendCh p)) /\
  p_dropped (writer_drain n p) = p_dropped p /\
  p_err (writer_drain n p) = p_err p /\
  peer_open (writer_drain n p).
Proof.
  destruct p as [[ca cc ce ck w] [buf cap cl] [b2 c2 cl2] fn lat has err dr].
  unfold peer_inv, peer_open.
  cbn [p_closed p_sendCh p_closeFn p_conn ch_buf ch_closed ch_cap].
  intros (H1 & H2 & H3 & H4 & H5 & H6) Hopen. subst.
  rewrite writer_drain_open. cbn. split_all; reflexivity.
Qed.

(** X4: what was sent reaches the wire in the order it was sent.  After
    any number of [send] calls on an open Peer, the writer, given [n]
    iterations without a fault, has put on the wire the first [n] of the
    snapshots the queue kept, in sending order, and left the rest queued;
    it discards nothing.  If the capacity was never exceeded and [n]
    covers the queue, everything queued and sent is on the wire and the
    queue is empty. *)
Theorem writer_transmits_in_sending_order :
  forall (calls : list (nat * nat * nat * StateMessage)) (n : nat) (p : peer),
    peer_inv p ->
    peer_open p ->
    exists p1,
      peer_send_all calls p = Returns (repeat None (length calls), p1) /\
      conn_wire (p_conn (writer_drain n p1)) =
        conn_wire (p_conn p) ++
        firstn n (keep_last defaultSendBufferSize (ch_buf (p_sendCh p) ++ map snd calls)) /\
      ch_buf (p_sendCh (writer_drain n p1)) =
        skipn n (keep_last defaultSendBufferSize (ch_buf (p_sendCh p) ++ map snd calls)) /\
      p_dropped (writer_drain n p1) = p_dropped p1 /\
      (length (ch_buf (p_sendCh p) ++ map snd calls) <= defaultSendBufferSize ->
       length (ch_buf (p_sendCh p) ++ map snd calls) <= n ->
       conn_wire (p_conn (writer_drain n p1)) =
         conn_wire (p_conn p) ++ ch_buf (p_sendCh p) ++ map snd calls /\
       ch_buf (p_sendCh (writer_drain n p1)) = [] /\
       p_dropped (writer_drain n p1) = p_dropped p).
Proof.
  intros calls n [[ca cc ce ck w] [buf cap cl] [b2 c2 cl2] fn lat has err dr].
  unfold peer_inv, peer_open.
  cbn [p_closed p_sendCh p_closeFn p_conn p_dropped conn_wire ch_buf ch_closed ch_cap].
  intros (H1 & H2 & H3 & H4 & H5 & H6) Hopen. subst.
  eexists. split; [exact (send_all_state calls _ _ _ _ _ _ _ _ _ _ _ H5) |].
  rewrite writer_drain_open.
  cbn [p_closed p_sendCh p_closeFn p_conn p_dropped conn_wire ch_buf ch_closed ch_cap].
  split_all; try reflexivity.
  intros Hfit Hn.
  destruct (keep_last_all defaultSendBufferSize (buf ++ map snd calls) Hfit) as (-> & ->).
  rewrite firstn_all2, skipn_all2, app_nil_r by exact Hn.
  split_all; reflexivity.
Qed.

Lemma writer_transmits_in_sending_order_witness :
  peer_inv (newPeer conn0) /\
  peer_open (newPeer conn0) /\
  exists p1,
    peer_send_all [(0, 0, 0, snapshot 1); (0, 0, 0, snapshot 2)] (newPeer conn0)
      = Returns (repeat None 2, p1) /\
    conn_wire (p_conn (writer_drain 5 p1)) = [snapshot 1; snapshot 2] /\
    ch_buf (p_sendCh (writer_drain 5 p1)) = [].
Proof.
  split; [apply newPeer_inv |]. split; [reflexivity |].
  destruct (writer_transmits_in_sending_order
              [(0, 0, 0, snapshot 1); (0, 0, 0, snapshot 2)] 5 (newPeer conn0)
              (newPeer_inv conn0) eq_refl)
    as (p1 & Hs & Hw & Hq & _).
  exists p1. split; [exact Hs |]. split; [rewrite Hw | rewrite Hq]; reflexivity.
Defined.

(** X5: a failed [Encode] ends the writer.  On an open Peer with a queued
    snapshot the writer takes the oldest one off the queue; when encoding
    it fails, the error is recorded through [setErr] (it is the sticky
    error unless an earlier fault is), the Peer is closed, the writer
    stops, and nothing is added to the wire. *)
Theorem writer_fault_is_recorded_and_closes :
  forall (o : nat) (e : error) (p : peer) (msg : StateMessage) (rest : list StateMessage),
    peer_inv p ->
    peer_open p ->
    ch_buf (p_sendCh p) = msg :: rest ->
    exists p',
      writeLoop_iter o (Some e) p = Returns (Stopped, p') /\
      peer_getErr p' = first_fault [p_err p; Some e] /\
      p_closeFn p' = true /\
      conn_closed (p_conn p') = true /\
      conn_wire (p_conn p') = conn_wire (p_conn p) /\
      ch_buf (p_sendCh p') = rest /\
      peer_latestState p' = peer_latestState p.
Proof.
  intros o e [[ca cc ce ck w] [buf cap cl] [b2 c2 cl2] fn lat has err dr] msg rest.
  unfold peer_inv, peer_open.
  cbn [p_closed p_sendCh p_closeFn p_conn p_err conn_wire conn_closed
       ch_buf ch_closed ch_cap].
  intros (H1 & H2 & H3 & H4 & H5 & H6) Hopen Hbuf. subst.
  unfold writeLoop_iter, closed_or_recv, chan_recv_ready.
  cbn [p_closed p_sendCh ch_buf ch_closed ch_cap length Nat.eqb negb orb offer app].
  rewrite pick_one. cbn [chan_recv p_sendCh ch_buf ch_cap ch_closed negb].
  unfold peer_setErr, set_sendCh, set_err, peer_close, chan_close, Conn_Close.
  destruct err as [e0|], cc; cbn; eexists; (split; [reflexivity |]); cbn;
    split_all; reflexivity.
Qed.

Lemma writer_fault_witness :
  peer_inv full_peer /\
  peer_open full_peer /\
  ch_buf (p_sendCh full_peer) = snapshot 1 :: map snapshot [2; 3; 4; 5; 6; 7; 8]%Z /\
  exists p',
    writeLoop_iter 0 (Some (ErrOther "broken pipe")) full_peer = Returns (Stopped, p') /\
    peer_getErr p' = Some (ErrOther "broken pipe") /\
    p_closeFn p' = true.
Proof.
  assert (Hinv : peer_inv full_peer)
    by (unfold peer_inv, full_peer, defaultSendBufferSize; cbn; split_all; try reflexivity; lia).
  split; [exact Hinv |]. split; [reflexivity |]. split; [reflexivity |].
  destruct (writer_fault_is_recorded_and_closes 0 (ErrOther "broken pipe") full_peer
              (snapshot 1) (map snapshot [2; 3; 4; 5; 6; 7; 8]%Z) Hinv eq_refl eq_refl)
    as (p' & Hw & He & Hc & _).
  exists p'. split_all; assumption.
Defined.



Lemma peer_close_frame (p p' : peer) (r : option error) :
  peer_close p = Returns (r, p') ->
  p_latest p' = p_latest p /\ p_hasData p' = p_hasData p /\
  conn_wire (p_conn p') = conn_wire (p_conn p) /\
  ch_buf (p_sendCh p') = ch_buf (p_sendCh p).
Proof.
  unfold peer_close, chan_close, Conn_Close.
  destruct (p_closeFn p); [intros H; injection H as _ <-; split_all; reflexivity |].
  destruct (ch_closed (p_closed p)); cbn; [discriminate |].
  destruct (ch_closed (p_sendCh p)); cbn; [discriminate |].
  destruct (conn_closed (p_conn p)); intros H; injection H as _ <-; split_all; reflexivity.
Qed.



(** ** The inbound cache *)

Lemma last_default {A : Type} (a : A) (l : list A) (d d' : A) :
  last (a :: l) d = last (a :: l) d'.
Proof.
  revert a. induction l as [|b l IH]; intros a; [reflexivity |].
  change (last (b :: l) d = last (b :: l) d'). apply IH.
Qed.

Lemma stored_snapshots_latest (msgs : list StateMessage) (p : peer) :
  let p' := fold_left (fun q msg => set_latest msg q) msgs p in
  p_latest p' = last msgs (p_latest p) /\
  p_hasData p' = (match msgs with [] => p_hasData p | _ => true end).
Proof.
  revert p. induction msgs as [|msg msgs IH]; intros p; cbn [fold_left];
    [split; reflexivity |].
  destruct (IH (set_latest msg p)) as (Hl & Hh). rewrite Hl, Hh.
  destruct msgs as [|s msgs]; [split; reflexivity |].
  split; [| reflexivity].
  change (last (msg :: s :: msgs) (p_latest p)) with (last (s :: msgs) (p_latest p)).
  apply last_default.
Qed.

(** X7: the reader keeps the freshest snapshot.  After it has decoded a
    run of snapshots [latestState] returns the last of them with true,
    whether the reader is still waiting for more or has met a fault and
    closed the Peer; the fault does not take the cached snapshot away,
    and the Manager's [LatestState] returns the same. *)
Theorem reader_caches_the_latest_snapshot :
  forall (p : peer) (m : Manager) (msgs : list StateMessage) (msg : StateMessage)
         (e : error) (later : list decoded),
    peer_inv p ->
    (exists p1,
       readLoop (map DecodeOk (msgs ++ [msg])) p = Returns (Blocked, p1) /\
       peer_latestState p1 = (msg, true)) /\
    (exists p2,
       readLoop (map DecodeOk (msgs ++ [msg]) ++ DecodeErr e :: later) p
         = Returns (Stopped, p2) /\
       p_closeFn p2 = true /\
       peer_latestState p2 = (msg, true) /\
       Manager_LatestState (Some (set_peer (Some p2) m)) = (msg, true)).
Proof.
  intros p m msgs msg e later Hinv.
  pose proof (stored_snapshots_latest (msgs ++ [msg]) p) as Hstored.
  cbv zeta in Hstored. destruct Hstored as (Hl & Hh).
  rewrite last_last in Hl.
  assert (Hh' : p_hasData (fold_left (fun q x => set_latest x q) (msgs ++ [msg]) p) = true)
    by (rewrite Hh; destruct msgs; reflexivity).
  destruct (stored_snapshots_keep (msgs ++ [msg]) p Hinv) as (Hinv1 & _).
  split.
  - eexists. split.
    + rewrite <- (app_nil_r (map DecodeOk (msgs ++ [msg]))), readLoop_decoded. reflexivity.
    + unfold peer_latestState. rewrite Hh', Hl. reflexivity.
  - rewrite readLoop_decoded.
    destruct (readLoop_iter_fault e _ Hinv1) as (p2 & Hr & _ & Hfn & _).
    assert (Hframe : p_latest p2 = msg /\ p_hasData p2 = true).
    { unfold readLoop_iter in Hr.
      match type of Hr with context [peer_close ?q] =>
        destruct (peer_close q) as [[r q']|] eqn:Hc end; cbn [bind] in Hr; [| discriminate Hr].
      injection Hr as <-.
      destruct (peer_close_frame _ _ _ Hc) as (-> & -> & _).
      destruct (negb (errors_Is e EOF));
        match goal with |- context [peer_setErr ?x ?y] =>
          destruct (peer_setErr_fields x y) as (_ & _ & _ & _ & -> & -> & _) end;
        split; assumption. }
    destruct Hframe as (Hl2 & Hh2).
    exists p2. cbn [readLoop]. rewrite Hr. cbn [bind].
    unfold Manager_LatestState, getPeer, peer_latestState. cbn [m_peer set_peer].
    rewrite Hh2, Hl2. split_all; try reflexivity. exact Hfn.
Qed.

Lemma reader_caches_the_latest_witness :
  peer_inv (newPeer conn0) /\
  exists p2,
    readLoop (map DecodeOk ([snapshot 1; snapshot 2] ++ [snapshot 3])
              ++ DecodeErr EOF :: []) (newPeer conn0) = Returns (Stopped, p2) /\
    peer_latestState p2 = (snapshot 3, true).
Proof.
  split; [apply newPeer_inv |].
  destruct (reader_caches_the_latest_snapshot (newPeer conn0) hosting
              [snapshot 1; snapshot 2] (snapshot 3) EOF [] (newPeer_inv conn0))
    as (_ & p2 & Hr & _ & Hl & _).
  exists p2. split; assumption.
Defined.

(** X8: the cached snapshot is replaced whole, and by the reader alone.
    Every step of a peer either leaves what [latestState] returns as it
    was, or is the reader storing a decoded snapshot, which changes the
    cached snapshot and the presence flag and nothing else.  So [send],
    [close], [setErr], a fault of the reader and every iteration of the
    writer keep the last cached value. *)
Theorem only_the_reader_changes_the_cache :
  forall (p p' : peer),
    peer_step p p' ->
    peer_latestState p' = peer_latestState p \/
    exists msg, p' = set_latest msg p /\ peer_latestState p' = (msg, true).
Proof.
  intros p p' Hstep.
  assert (Hsame : p_latest p' = p_latest p /\ p_hasData p' = p_hasData p ->
                  peer_latestState p' = peer_latestState p)
    by (unfold peer_latestState; intros (-> & ->); reflexivity).
  destruct Hstep as [err p | o1 o2 o3 state p p' r H | p p' r H
                    | d p p' st H | o enc p p' st H].
  - left. apply Hsame.
    destruct (peer_setErr_fields err p) as (_ & _ & _ & _ & -> & -> & _). split; reflexivity.
  - left. apply Hsame.
    destruct (peer_send_same _ _ _ _ _ _ _ H) as (_ & _ & _ & -> & -> & _). split; reflexivity.
  - left. apply Hsame.
    destruct (peer_close_frame _ _ _ H) as (-> & -> & _). split; reflexivity.
  - destruct d as [msg | err].
    + right. cbn in H. injection H as _ <-. exists msg. split; reflexivity.
    + left. apply Hsame. unfold readLoop_iter in H.
      match type of H with context [peer_close ?q] =>
        destruct (peer_close q) as [[r q']|] eqn:Hc end; cbn [bind] in H; [| discriminate H].
      injection H as _ <-.
      destruct (peer_close_frame _ _ _ Hc) as (-> & -> & _).
      destruct (negb (errors_Is err EOF));
        match goal with |- context [peer_setErr ?x ?y] =>
          destruct (peer_setErr_fields x y) as (_ & _ & _ & _ & -> & -> & _) end;
        split; reflexivity.
  - left. apply Hsame. unfold writeLoop_iter in H.
    destruct (pick o (closed_or_recv p)) as [[| |]|];
      try (injection H as _ <-; split; reflexivity).
    unfold chan_recv in H. destruct (ch_buf (p_sendCh p)) as [|v rest]; cbn [negb] in H.
    + injection H as _ <-. split; reflexivity.
    + destruct enc as [err|]; [| injection H as _ <-; split; reflexivity].
      match type of H with context [peer_close ?q] =>
        destruct (peer_close q) as [[r q']|] eqn:Hc end; cbn [bind] in H; [| discriminate H].
      injection H as _ <-.
      destruct (peer_close_frame _ _ _ Hc) as (-> & -> & _).
      match goal with |- context [peer_setErr ?x ?y] =>
        destruct (peer_setErr_fields x y) as (_ & _ & _ & _ & -> & -> & _) end.
      split; reflexivity.
Qed.

Lemma only_the_reader_changes_the_cache_witness :
  peer_step full_peer (set_latest (snapshot 7) full_peer) /\
  (peer_latestState (set_latest (snapshot 7) full_peer) = peer_latestState full_peer \/
   exists msg, set_latest (snapshot 7) full_peer = set_latest msg full_peer /\
               peer_latestState (set_latest (snapshot 7) full_peer) = (msg, true)).
Proof.
  assert (Hs : peer_step full_peer (set_latest (snapshot 7) full_peer))
    by (apply (PS_read (DecodeOk (snapshot 7)) full_peer _ Continue); reflexivity).
  split; [exact Hs |].
  exact (only_the_reader_changes_the_cache _ _ Hs).
Defined.

(** ** [close] of a peer *)




(** ** More on the Manager: what every step keeps *)

Lemma acceptOnce_after_inv (r : accepted) (m m' : Manager) (d : option Conn) :
  Manager_inv m ->
  acceptOnce_after r m = Returns (m', d) ->
  Manager_inv m'.
Proof.
  intros Hinv. unfold acceptOnce_after.
  destruct r as [conn | err].
  - destruct (isClosed m).
    + destruct (Conn_Close conn). intros H; injection H as <- _; exact Hinv.
    + destruct (m_peer m) eqn:Hp.
      * destruct (peer_close (newPeer conn)) as [[? ?]|]; cbn; intros H;
          [injection H as <- _; exact Hinv | discriminate H].
      * intros H; injection H as <- _.
        destruct Hinv as (H1 & H2 & _). unfold Manager_inv. cbn.
        split_all; trivial. apply newPeer_inv.
  - intros H; injection H as <- _.
    destruct (negb (errors_Is err ErrClosed));
      [exact (Manager_setErr_inv (Some err) m Hinv) | exact Hinv].
Qed.

Lemma Manager_Close_inv (m m' : Manager) (c : close_end) :
  Manager_inv m ->
  Manager_Close (Some m) = Returns c ->
  ce_mgr c = Some m' ->
  Manager_inv m' /\ m_closeOnce m' = true /\
  (m_closeOnce m = true -> m' = m) /\
  (m_closeOnce m = false -> m_listener m' = None).
Proof.
  intros Hinv H Hc.
  destruct (m_closeOnce m) eqn:Hdone.
  - unfold Manager_Close in H. rewrite Hdone in H. injection H as <-.
    cbn in Hc. injection Hc as <-. split_all; trivial. discriminate.
  - destruct (Close_first m Hinv Hdone) as (m1 & E & Hinv1 & Hdone1 & _ & Hl & _).
    rewrite E in H. injection H as <-. cbn in Hc. injection Hc as <-.
    split_all; trivial. discriminate.
Qed.

(** Every step keeps a well-formed Manager well formed. *)
Lemma Manager_step_inv (m m' : Manager) :
  Manager_step m m' -> Manager_inv m -> Manager_inv m'.
Proof.
  intros Hstep Hinv.
  destruct Hstep as [o1 o2 o3 state m m' r H | m m' c H Hc | net m e H
                    | r m m' d H | m p p' Hp H].
  - exact (Manager_Send_inv o1 o2 o3 state m m' r Hinv H).
  - exact (proj1 (Manager_Close_inv m m' c Hinv H Hc)).
  - exact (acceptOnce_inv net m e Hinv H).
  - exact (acceptOnce_after_inv r m m' d Hinv H).
  - destruct Hinv as (H1 & H2 & H3). rewrite Hp in H3.
    unfold Manager_inv. cbn. split_all; trivial. exact (peer_step_inv p p' H H3).
Qed.

Lemma Manager_steps_inv (m m' : Manager) :
  Manager_steps m m' -> Manager_inv m -> Manager_inv m'.
Proof.
  induction 1 as [m | m n k Hstep _ IH]; intros Hinv; [exact Hinv |].
  apply IH, (Manager_step_inv m n Hstep Hinv).
Qed.

(** X10: in every state a Manager made by [Host] or by [Join] can reach,
    [Close] returns (it never panics on a channel closed twice), the
    bound Peer's queue holds at most [defaultSendBufferSize] snapshots, and
    the Manager's [closed] channel is closed exactly when [Close] has
    run. *)
Theorem reachable_Manager_is_well_formed :
  forall (listen : string -> listened) (dial : string -> dialed) (address : string)
         (m0 m : Manager),
    fst (Host listen address) = Some m0 \/ fst (Join dial address) = Some m0 ->
    Manager_steps m0 m ->
    (exists c, Manager_Close (Some m) = Returns c) /\
    isClosed m = m_closeOnce m /\
    match m_peer m with
    | Some p =>
        length (ch_buf (p_sendCh p)) <= defaultSendBufferSize /\
        ch_closed (p_sendCh p) = p_closeFn p
    | None => True
    end.
Proof.
  intros listen dial address m0 m Hmade Hsteps.
  assert (Hinv0 : Manager_inv m0).
  { destruct Hmade as [H | H];
      [exact (proj1 (Host_inv listen address m0 H))
      | exact (proj1 (Join_inv dial address m0 H))]. }
  pose proof (Manager_steps_inv m0 m Hsteps Hinv0) as Hinv.
  split_all.
  - destruct (m_closeOnce m) eqn:Hdone.
    + eexists. unfold Manager_Close. rewrite Hdone. reflexivity.
    + destruct (Close_first m Hinv Hdone) as (m1 & E & _). eexists. exact E.
  - destruct Hinv as (H1 & H2 & _). unfold isClosed, chan_recv_ready.
    rewrite H2, H1. reflexivity.
  - destruct Hinv as (_ & _ & H3). destruct (m_peer m) as [p|]; [| exact I].
    destruct H3 as (_ & A & _ & _ & B & _). split; assumption.
Qed.

Lemma reachable_Manager_witness :
  (fst (Host (fun _ => ListenOk listener0) EmptyString) = Some hosting \/
   fst (Join (fun _ => DialOk conn0) EmptyString) = Some hosting) /\
  Manager_steps hosting hosting_bound /\
  exists c, Manager_Close (Some hosting_bound) = Returns c.
Proof.
  assert (Hmade : fst (Host (fun _ => ListenOk listener0) EmptyString) = Some hosting \/
                  fst (Join (fun _ => DialOk conn0) EmptyString) = Some hosting)
    by (left; reflexivity).
  assert (Hsteps : Manager_steps hosting hosting_bound).
  { eapply Manager_steps_next; [| apply Manager_steps_refl].
    apply (MS_accept (AcceptConn conn1) hosting (mkAcceptEnd hosting_bound 1 None)).
    reflexivity. }
  split; [exact Hmade |]. split; [exact Hsteps |].
  exact (proj1 (reachable_Manager_is_well_formed
                  (fun _ => ListenOk listener0) (fun _ => DialOk conn0) EmptyString
                  hosting hosting_bound Hmade Hsteps)).
Defined.




(** ** Establishment *)

(** X12: [Host] with no client ever connecting, followed by [Close].
    [Host] returns a Manager at once, with no Peer; [Close] closes the
    listener once and returns what closing it returned (nil when that is
    nil or "already closed"); the accept task, whose [Accept] then fails
    with "already closed", records nothing: the Manager has no error, no
    Peer and no snapshot. *)
Theorem Host_then_Close_without_client :
  forall (listen : string -> listened) (address : string) (l : Listener) (net : accepted),
    listen (if String.eqb address EmptyString then defaultListenAddress else address)
      = ListenOk l ->
    l_closed l = false ->
    exists m m1 l1,
      Host listen address = (Some m, None) /\
      m_peer m = None /\
      Manager_Close (Some m)
        = Returns (mkCloseEnd (first_non_benign [l_closeErr l]) (Some m1) (Some l1)) /\
      l_closed l1 = true /\ l_closeCalls l1 = S (l_closeCalls l) /\
      fst (Listener_Accept net l1) = AcceptErr (OpError "accept" ErrClosed) /\
      acceptOnce_after (fst (Listener_Accept net l1)) m1 = Returns (m1, None) /\
      Manager_Err (Some m1) = None /\
      m_peer m1 = None /\
      Manager_LatestState (Some m1) = (StateMessage_zero, false).
Proof.
  intros listen address l net Hlisten Hopen.
  unfold Host. rewrite Hlisten.
  exists (set_listener (Some l) (newManager None)),
         (mkManager None None true (mkChan [] 0 true) None),
         (mkListener true (l_closeErr l) (S (l_closeCalls l)) (l_acceptCalls l)).
  split; [reflexivity |]. split; [reflexivity |].
  unfold Manager_Close, chan_close, swapListener, getPeer, set_listener, newManager,
    make_chan, Listener_Close.
  cbn [m_peer m_listener m_closeOnce m_closed m_err ch_closed ch_buf ch_cap bind].
  rewrite Hopen. unfold first_non_benign, benign.
  split.
  - destruct (l_closeErr l) as [e|]; [destruct (errors_Is e ErrClosed) |]; reflexivity.
  - cbn. split_all; reflexivity.
Qed.

Lemma Host_then_Close_witness :
  (fun _ : string => ListenOk listener0)
    (if String.eqb EmptyString EmptyString then defaultListenAddress else EmptyString)
    = ListenOk listener0 /\
  l_closed listener0 = false /\
  exists m m1 l1,
    Host (fun _ => ListenOk listener0) EmptyString = (Some m, None) /\
    m_peer m = None /\
    Manager_Close (Some m)
      = Returns (mkCloseEnd (first_non_benign [l_closeErr listener0]) (Some m1) (Some l1)) /\
    l_closed l1 = true /\ l_closeCalls l1 = S (l_closeCalls listener0) /\
    fst (Listener_Accept (AcceptConn conn0) l1) = AcceptErr (OpError "accept" ErrClosed) /\
    acceptOnce_after (fst (Listener_Accept (AcceptConn conn0) l1)) m1 = Returns (m1, None) /\
    Manager_Err (Some m1) = None /\
    m_peer m1 = None /\
    Manager_LatestState (Some m1) = (StateMessage_zero, false).
Proof.
  split; [reflexivity |]. split; [reflexivity |].
  apply (Host_then_Close_without_client (fun _ => ListenOk listener0) EmptyString
           listener0 (AcceptConn conn0)); reflexivity.
Defined.

(** X13: an accept failure.  When [Accept] on the held, open listener
    fails, the accept task made that one attempt, closes the listener
    once, binds no Peer and closes no connection; the failure becomes the
    Manager's sticky error unless it is an "already closed" condition (then
    nothing is recorded) or an earlier error is there; and [Err] reports
    it on a Manager without error and Peer. *)
Theorem accept_failure_is_recorded :
  forall (m : Manager) (l : Listener) (e : error),
    m_listener m = Some l ->
    l_closed l = false ->
    exists r l',
      acceptOnce (AcceptErr e) m = Returns r /\
      ae_accepts r = 1 /\
      ae_discarded r = None /\
      m_peer (ae_mgr r) = m_peer m /\
      m_listener (ae_mgr r) = Some l' /\
      l_closed l' = true /\ l_closeCalls l' = S (l_closeCalls l) /\
      Manager_getErr (ae_mgr r) =
        (if errors_Is e ErrClosed then m_err m else first_fault [m_err m; Some e]) /\
      (m_err m = None -> m_peer m = None ->
       Manager_Err (Some (ae_mgr r)) = (if errors_Is e ErrClosed then None else Some e)).
Proof.
  intros m l e Hl Hopen.
  unfold acceptOnce, getListener, Listener_Accept, acceptOnce_after, Listener_Close.
  rewrite Hl, Hopen. cbn [bind l_closed l_closeErr l_closeCalls l_acceptCalls].

  eexists _, _. split; [reflexivity |].
  cbn -[Nat.sub errors_Is]. split_all; try reflexivity.
  - lia.
  - destruct (errors_Is e ErrClosed); cbn; [reflexivity |].
    unfold Manager_setErr. destruct (m_err m); reflexivity.
  - destruct (errors_Is e ErrClosed); cbn; [reflexivity |].
    unfold Manager_setErr, Manager_getErr. destruct (m_err m) eqn:He; cbn; rewrite ?He; reflexivity.
  - intros Herr Hpeer. unfold Manager_Err, Manager_getErr, getPeer.
    destruct (errors_Is e ErrClosed); cbn.
    + rewrite Herr, Hpeer. reflexivity.
    + unfold Manager_setErr. rewrite Herr. reflexivity.
Qed.

Lemma accept_failure_witness :
  m_listener hosting = Some listener0 /\
  l_closed listener0 = false /\
  exists r,
    acceptOnce (AcceptErr (ErrOther "too many open files")) hosting = Returns r /\
    Manager_Err (Some (ae_mgr r)) = Some (ErrOther "too many open files").
Proof.
  split; [reflexivity |]. split; [reflexivity |].
  destruct (accept_failure_is_recorded hosting listener0 (ErrOther "too many open files")
              eq_refl eq_refl)
    as (r & l' & Ha & _ & _ & _ & _ & _ & _ & _ & Herr).
  exists r. split; [exact Ha |]. exact (Herr eq_refl eq_refl).
Defined.

(** X14: [Join].  A failed dial is returned as it is, with no Manager.
    A successful dial gives a Manager bound to that connection, open, with
    no error and no snapshot yet, on which a first [Send] returns nil and
    queues the snapshot; an empty address means the default one. *)
Theorem Join_gives_a_bound_Manager_or_the_dial_error :
  forall (dial : string -> dialed) (address : string) (state : StateMessage)
         (o1 o2 o3 : nat),
    match dial (if String.eqb address EmptyString then defaultDialAddress else address) with
    | DialErr e => Join dial address = (None, Some e)
    | DialOk conn =>
        exists m m',
          Join dial address = (Some m, None) /\
          bound_to m = Some (conn_remote conn) /\
          m_listener m = None /\ isClosed m = false /\
          Manager_Err (Some m) = None /\
          Manager_LatestState (Some m) = (StateMessage_zero, false) /\
          Manager_Send o1 o2 o3 state (Some m) = Returns (None, Some m') /\
          match m_peer m' with
          | Some p => ch_buf (p_sendCh p) = [state] /\ p_conn p = conn
          | None => False
          end
    end.
Proof.
  intros dial address state o1 o2 o3. unfold Join.
  destruct (dial _) as [conn | e]; [| reflexivity].
  destruct conn as [ca cc ce ck w].
  exists (newManager (Some (newPeer (mkConn ca cc ce ck w)))),
         (set_peer (Some (mkPeer (mkConn ca cc ce ck w)
                            (mkChan [state] defaultSendBufferSize false)
                            (mkChan [] 0 false) false StateMessage_zero false None []))
                   (newManager (Some (newPeer (mkConn ca cc ce ck w))))).
  split_all; try reflexivity.
  cbn. split; reflexivity.
Qed.



(** One [send] on an open peer, in the terms of the peer. *)
Lemma sends_state_one (o1 o2 o3 : nat) (p : peer) (state : StateMessage) :
  peer_inv p ->
  peer_open p ->
  exists p',
    peer_send o1 o2 o3 state p = Returns (None, p') /\
    ch_buf (p_sendCh p') =
      keep_last defaultSendBufferSize (ch_buf (p_sendCh p) ++ [state]) /\
    p_err p' = p_err p.
Proof.
  destruct p as [[ca cc ce ck w] [buf cap cl] [b2 c2 cl2] fn lat has err dr].
  unfold peer_inv, peer_open.
  cbn [p_closed p_sendCh p_closeFn p_conn p_err ch_buf ch_closed ch_cap].
  intros (H1 & H2 & H3 & H4 & H5 & H6) Hopen. subst.
  eexists. split; [exact (send_open_state o1 o2 o3 state _ _ _ _ _ _ _ _ _ _ _ H5) |].
  split; reflexivity.
Qed.

(** ** The game's use of the transport *)

Lemma fold_append_map {A B : Type} (f : A -> B) (l : list A) (acc : list B) :
  fold_left (fun out x => out ++ [f x]) l acc = acc ++ map f l.
Proof.
  revert acc. induction l as [|x l IH]; intros acc; cbn [fold_left map].
  - rewrite app_nil_r. reflexivity.
  - rewrite IH, <- app_assoc. reflexivity.
Qed.

Lemma assign_remote_all (s : PlayerState) (r : entities.Player) :
  assign_remote s r =
  entities.mkPlayer (ps_X s) (ps_Y s) (ps_VelocityX s) (ps_VelocityY s)
                    (ps_OnGround s) (ps_FacingRight s).
Proof. reflexivity. Qed.

(** What [applyRemoteState] leaves, whatever the game held before. *)
Lemma applyRemoteState_spec (BulletWidth BulletHeight : float64)
    (state : StateMessage) (g : Game) :
  applyRemoteState BulletWidth BulletHeight state g =
  set_remote
    (Some (entities.mkPlayer (ps_X (Player state)) (ps_Y (Player state))
             (ps_VelocityX (Player state)) (ps_VelocityY (Player state))
             (ps_OnGround (Player state)) (ps_FacingRight (Player state))))
    (map (fun b => entities.NewBullet (bs_X b) (bs_Y b) (bs_VelocityX b)
                     BulletWidth BulletHeight) (Bullets state))
    g.
Proof.
  unfold applyRemoteState. cbv zeta. rewrite assign_remote_all.
  rewrite (fold_append_map
             (fun b => entities.NewBullet (bs_X b) (bs_Y b) (bs_VelocityX b)
                         BulletWidth BulletHeight)).
  reflexivity.
Qed.

(** X16: a snapshot carries a player across.  The snapshot
    [buildLocalState] makes of one game, applied by [applyRemoteState] to
    another, makes the other game's remote player equal to the first
    game's player, field for field, and its enemy bullets the first game's
    bullets, as many and in the same order, each with its position and
    velocity and with the configured width and height; the rest of the
    receiving game is untouched. *)
Theorem snapshot_carries_player_and_bullets :
  forall (BulletWidth BulletHeight : float64) (sender receiver : Game),
    let received :=
      applyRemoteState BulletWidth BulletHeight (buildLocalState sender) receiver in
    g_remote received = Some (g_player sender) /\
    g_enemyFire received =
      map (fun b => entities.mkBullet (entities.bu_X b) (entities.bu_Y b)
                      (entities.bu_VelocityX b) BulletWidth BulletHeight)
          (g_bullets sender) /\
    length (g_enemyFire received) = length (g_bullets sender) /\
    g_player received = g_player receiver /\
    g_bullets received = g_bullets receiver /\
    g_net received = g_net receiver /\
    g_platforms received = g_platforms receiver /\
    g_npcs received = g_npcs receiver /\
    g_camera received = g_camera receiver.
Proof.
  intros BulletWidth BulletHeight sender receiver. cbv zeta.
  rewrite applyRemoteState_spec. unfold buildLocalState. cbv zeta.
  cbn [Player Bullets ps_X ps_Y ps_VelocityX ps_VelocityY ps_OnGround ps_FacingRight
       set_remote g_remote g_enemyFire g_player g_bullets g_net g_platforms g_npcs g_camera].
  rewrite (fold_append_map
             (fun b => mkBulletState (entities.bu_X b) (entities.bu_Y b)
                                     (entities.bu_VelocityX b))).
  cbn [app]. rewrite map_map. cbn [bs_X bs_Y bs_VelocityX].
  split_all; try reflexivity.
  - destruct (g_player sender); reflexivity.
  - rewrite length_map. reflexivity.
Qed.

(** X17: each snapshot replaces the one before it.  Applying a snapshot
    after another leaves the game as applying the second alone would: the
    remote player and the enemy bullets come from the last snapshot only,
    and a snapshot without bullets leaves no enemy bullet. *)
Theorem applyRemoteState_replaces :
  forall (BulletWidth BulletHeight : float64) (first second : StateMessage) (g : Game),
    applyRemoteState BulletWidth BulletHeight second
      (applyRemoteState BulletWidth BulletHeight first g)
    = applyRemoteState BulletWidth BulletHeight second g /\
    (Bullets second = [] ->
     g_enemyFire (applyRemoteState BulletWidth BulletHeight second g) = []).
Proof.
  intros BulletWidth BulletHeight first second g.
  rewrite !applyRemoteState_spec. split; [reflexivity |].
  intros ->. reflexivity.
Qed.

Lemma set_net_same (g : Game) : set_net (g_net g) g = g.
Proof. destruct g; reflexivity. Qed.

(** X18: a tick without a Peer.  In a local game (no Manager)
    [updateNetwork] returns nil and changes nothing; on a Manager that has
    no Peer yet it applies nothing, sends nothing, leaves the game as it
    is and returns the Manager's own sticky error, nil while the host is
    still waiting for its client. *)
Theorem updateNetwork_without_peer :
  forall (BulletWidth BulletHeight : float64) (o1 o2 o3 : nat) (g : Game),
    match g_net g with
    | None => updateNetwork BulletWidth BulletHeight o1 o2 o3 g = Returns (None, g)
    | Some m =>
        m_peer m = None ->
        updateNetwork BulletWidth BulletHeight o1 o2 o3 g = Returns (m_err m, g)
    end.
Proof.
  intros BulletWidth BulletHeight o1 o2 o3 g.
  unfold updateNetwork.
  destruct (g_net g) as [m|] eqn:Hnet; [| reflexivity].
  intros Hpeer.
  unfold Manager_LatestState, getPeer. rewrite Hpeer. rewrite Hnet.
  unfold Manager_Send, getPeer. rewrite Hpeer. cbn [bind].
  rewrite <- Hnet, set_net_same, Hnet.
  unfold Manager_Err, Manager_getErr, getPeer. rewrite Hpeer.
  destruct (m_err m); reflexivity.
Qed.

(** X19: a tick surfaces every fault.  When [updateNetwork] returns nil,
    the Manager it leaves has no error to report ([Err] is nil): a fault
    recorded on the Manager or on its Peer makes the tick return an error.
    And whatever it returns, the tick never changes the local player or
    the local bullets. *)
Theorem updateNetwork_reports_faults :
  forall (BulletWidth BulletHeight : float64) (o1 o2 o3 : nat) (g g' : Game)
         (r : option error),
    updateNetwork BulletWidth BulletHeight o1 o2 o3 g = Returns (r, g') ->
    (r = None -> Manager_Err (g_net g') = None) /\
    g_player g' = g_player g /\
    g_bullets g' = g_bullets g.
Proof.
  intros BulletWidth BulletHeight o1 o2 o3 g g' r. unfold updateNetwork.
  destruct (g_net g) as [m|] eqn:Hnet.
  - destruct (Manager_LatestState (Some m)) as [state ok].
    set (g1 := if ok then applyRemoteState BulletWidth BulletHeight state g else g).
    assert (Hkeep : g_player g1 = g_player g /\ g_bullets g1 = g_bullets g)
      by (unfold g1; destruct ok; [rewrite applyRemoteState_spec |]; split; reflexivity).
    destruct (Manager_Send o1 o2 o3 (buildLocalState g1) (g_net g1)) as [[err net]|];
      cbn [bind]; [| discriminate].
    destruct err as [e|].
    + intros H; injection H as <- <-. split; [discriminate | exact Hkeep].
    + destruct (Manager_Err (g_net (set_net net g1))) as [e|] eqn:He;
        intros H; injection H as <- <-.
      * split; [discriminate | exact Hkeep].
      * split; [intros _; exact He | exact Hkeep].
  - intros H; injection H as <- <-. rewrite Hnet. split_all; reflexivity.
Qed.

(** A game in client mode, bound to an open peer. *)
Lemma updateNetwork_reports_faults_witness :
  exists g g',
    updateNetwork 0%Z 0%Z 0 0 0 g = Returns (None, g') /\
    Manager_Err (g_net g') = None.
Proof.
  pose (g := mkGame (entities.NewPlayer 1%Z 2%Z) [] [] [] (mkCamera 0%Z 0%Z) None []
                    (Some (newManager (Some (newPeer conn0))))
                    (mkOptions ModeClient EmptyString) false).
  assert (H : exists g', updateNetwork 0%Z 0%Z 0 0 0 g = Returns (None, g'))
    by (eexists; reflexivity).
  destruct H as (g' & H).
  exists g, g'. split; [exact H |].
  exact (proj1 (updateNetwork_reports_faults 0%Z 0%Z 0 0 0 g g' None H) eq_refl).
Defined.

(** X20: a tick on a healthy connection.  With an open Peer and no
    error recorded, [updateNetwork] returns nil; if a snapshot has
    arrived, the remote player and the enemy bullets are the ones of the
    latest snapshot, otherwise they stay; and the snapshot of the local
    player is queued last for the writer, the oldest queued one making
    room when the queue was full. *)
Theorem updateNetwork_on_open_peer :
  forall (BulletWidth BulletHeight : float64) (o1 o2 o3 : nat) (g : Game)
         (m : Manager) (p : peer),
    g_net g = Some m ->
    m_peer m = Some p ->
    m_err m = None ->
    peer_inv p ->
    peer_open p ->
    p_err p = None ->
    exists g' m' p',
      updateNetwork BulletWidth BulletHeight o1 o2 o3 g = Returns (None, g') /\
      g_net g' = Some m' /\ m_peer m' = Some p' /\
      ch_buf (p_sendCh p') =
        keep_last defaultSendBufferSize (ch_buf (p_sendCh p) ++ [buildLocalState g]) /\
      g_remote g' =
        (if p_hasData p
         then Some (entities.mkPlayer
                      (ps_X (Player (p_latest p))) (ps_Y (Player (p_latest p)))
                      (ps_VelocityX (Player (p_latest p)))
                      (ps_VelocityY (Player (p_latest p)))
                      (ps_OnGround (Player (p_latest p)))
                      (ps_FacingRight (Player (p_latest p))))
         else g_remote g) /\
      length (g_enemyFire g') =
        (if p_hasData p then length (Bullets (p_latest p)) else length (g_enemyFire g)) /\
      g_player g' = g_player g.
Proof.
  intros BulletWidth BulletHeight o1 o2 o3 g m p Hnet Hpeer Hmerr Hinv Hopen Hperr.
  destruct (sends_state_one o1 o2 o3 p
              (buildLocalState g) Hinv Hopen) as (p' & Hsend & Hq & Herr).
  unfold updateNetwork. rewrite Hnet.
  unfold Manager_LatestState, getPeer, peer_latestState. rewrite Hpeer.
  destruct (p_hasData p) eqn:Hhas; cbn [negb].
  - rewrite applyRemoteState_spec.
    assert (Hb : buildLocalState
                   (set_remote
                      (Some (entities.mkPlayer
                               (ps_X (Player (p_latest p))) (ps_Y (Player (p_latest p)))
                               (ps_VelocityX (Player (p_latest p)))
                               (ps_VelocityY (Player (p_latest p)))
                               (ps_OnGround (Player (p_latest p)))
                               (ps_FacingRight (Player (p_latest p)))))
                      (map (fun b => entities.NewBullet (bs_X b) (bs_Y b) (bs_VelocityX b)
                                       BulletWidth BulletHeight) (Bullets (p_latest p)))
                      g) = buildLocalState g) by reflexivity.
    rewrite Hb. cbn [g_net set_remote]. rewrite Hnet.
    unfold Manager_Send, getPeer. rewrite Hpeer, Hsend. cbn [bind].
    unfold Manager_Err, Manager_getErr, getPeer, peer_getErr.
    cbn [g_net set_net m_err m_peer set_peer]. rewrite Hmerr, Herr, Hperr.
    eexists _, _, p'. split; [reflexivity |].
    cbn. split_all; try reflexivity; try assumption.
    rewrite length_map. reflexivity.
  - rewrite Hnet.
    unfold Manager_Send, getPeer. rewrite Hpeer, Hsend. cbn [bind].
    unfold Manager_Err, Manager_getErr, getPeer, peer_getErr.
    cbn [g_net set_net m_err m_peer set_peer]. rewrite Hmerr, Herr, Hperr.
    eexists _, _, p'. split; [reflexivity |].
    cbn. split_all; try reflexivity; assumption.
Qed.

Lemma updateNetwork_on_open_peer_witness :
  exists g g',
    updateNetwork 7%Z 3%Z 0 1 2 g = Returns (None, g') /\
    g_remote g' = g_remote g /\
    match g_net g' with
    | Some m' =>
        match m_peer m' with
        | Some p' => ch_buf (p_sendCh p') = [buildLocalState g]
        | None => False
        end
    | None => False
    end.
Proof.
  pose (g := mkGame (entities.NewPlayer 1%Z 2%Z) [] [entities.NewBullet 5%Z 6%Z 9%Z 7%Z 3%Z]
                    [] (mkCamera 0%Z 0%Z) None []
                    (Some (newManager (Some (newPeer conn0))))
                    (mkOptions ModeClient EmptyString) false).
  destruct (updateNetwork_on_open_peer 7%Z 3%Z 0 1 2 g
              (newManager (Some (newPeer conn0))) (newPeer conn0)
              eq_refl eq_refl eq_refl (newPeer_inv conn0) eq_refl eq_refl)
    as (g' & m' & p' & Hu & Hn & Hp & Hq & Hr & _).
  exists g, g'. split; [exact Hu |]. split; [exact Hr |].
  rewrite Hn, Hp. exact Hq.
Defined.

(** X21: [startNetwork] by mode.  It returns neither a Manager nor an
    error exactly in local mode (mode "local" or empty); host mode is
    [Host] and client mode is [Join], on the given address; any other mode
    gives an error naming the mode and no Manager; and it never returns a
    Manager together with an error. *)
Theorem startNetwork_by_mode :
  forall (listen : string -> listened) (dial : string -> dialed) (opts : Options),
    (startNetwork listen dial opts = (None, None) <->
     opt_Mode opts = ModeLocal \/ opt_Mode opts = EmptyString) /\
    (opt_Mode opts = ModeHost ->
     startNetwork listen dial opts = Host listen (opt_Address opts)) /\
    (opt_Mode opts = ModeClient ->
     startNetwork listen dial opts = Join dial (opt_Address opts)) /\
    (opt_Mode opts <> ModeLocal -> opt_Mode opts <> EmptyString ->
     opt_Mode opts <> ModeHost -> opt_Mode opts <> ModeClient ->
     startNetwork listen dial opts =
       (None, Some (ErrOther (String.append "unknown game mode: " (opt_Mode opts))))) /\
    match startNetwork listen dial opts with
    | (Some _, Some _) => False
    | _ => True
    end.
Proof.
  intros listen dial opts. unfold startNetwork.
  destruct (String.eqb_spec (opt_Mode opts) ModeLocal) as [Hlocal | Hlocal];
    [| destruct (String.eqb_spec (opt_Mode opts) EmptyString) as [Hempty | Hempty]];
    cbn [orb];
    [| | destruct (String.eqb_spec (opt_Mode opts) ModeHost) as [Hhost | Hhost];
         [| destruct (String.eqb_spec (opt_Mode opts) ModeClient) as [Hclient | Hclient]]];
    unfold Host, Join;
    try destruct (listen _); try destruct (dial _);
    split_all; try exact I; try reflexivity;
    try (split; [intros _; tauto | reflexivity]);
    try (split; [discriminate | intros [H | H]; contradiction]);
    intros; unfold ModeLocal, ModeHost, ModeClient in *; congruence.
Qed.
